(** * api-integration-framework: resilient HTTP client and workflow engine

    A shallow embedding of [src/services/http_client.py],
    [src/services/workflow_engine.py], [src/core/config.py] and the
    cancel endpoint of [src/api/executions.py], with the properties of
    the specification stated and settled against it.

    Conventions.
    - Python [int] is [Z]; Python [float] is the kernel's binary64
      [float] (IEEE 754, round to nearest even, as CPython's).
    - A [datetime] is the number of microseconds since the epoch, a [Z]
      (the resolution of [datetime]); a [timedelta] is a [Z] of
      microseconds.
    - A [Dict[str, Any]] is a [gmap string value].
    - Code that raises is a computation in the monad [M]: it returns
      [Ok a] or [Raise e] together with the world it leaves behind.
    - The wall clock and the network are the environment: every
      [datetime.utcnow()] consumes one reading of [utcnow_at], every
      [client.request] one answer of [transport]. *)

From Stdlib Require Import ZArith Floats Lia.
From stdpp Require Import gmap strings list.

Set Warnings "-register-all".
Local Open Scope Z_scope.

(** ** Python values *)

Inductive value :=
| VNone
| VBool (b : bool)
| VInt (z : Z)
| VFloat (f : float)
| VStr (s : string)
| VList (l : list value)
| VDict (d : gmap string value).

(** [type(v).__name__] *)
Definition type_name (v : value) : string :=
  match v with
  | VNone => "NoneType"
  | VBool _ => "bool"
  | VInt _ => "int"
  | VFloat _ => "float"
  | VStr _ => "str"
  | VList _ => "list"
  | VDict _ => "dict"
  end.

(** [bool(v)]: what [if v:] and [a or b] test. *)
Definition truthy (v : value) : bool :=
  match v with
  | VNone => false
  | VBool b => b
  | VInt z => negb (z =? 0)
  | VFloat f => negb (PrimFloat.eqb f 0%float)
  | VStr s => negb (String.eqb s "")
  | VList l => match l with [] => false | _ => true end
  | VDict d => negb (bool_decide (d = ∅))
  end.

(** An exception object: its class, [str(e)] and [e.__cause__]. Only
    subclasses of [Exception] are modelled. *)
Inductive pyexn :=
| PyExn (cls : string) (msg : string) (cause : option pyexn).

Definition exn_class (e : pyexn) : string :=
  match e with PyExn c _ _ => c end.
Definition exn_str (e : pyexn) : string :=
  match e with PyExn _ m _ => m end.
Definition exn_cause (e : pyexn) : option pyexn :=
  match e with PyExn _ _ c => c end.

Inductive result (A : Type) :=
| Ok (a : A)
| Raise (e : pyexn).
Arguments Ok {A} a.
Arguments Raise {A} e.

Definition AttributeError_get (v : value) : pyexn :=
  PyExn "AttributeError"
        ("'" +:+ type_name v +:+ "' object has no attribute 'get'") None.

(** [v.get(k)] and [v.get(k, dflt)]: a dict answers, anything else has
    no [get]. *)
Definition py_get (v : value) (k : string) (dflt : value) : result value :=
  match v with
  | VDict d => Ok (default dflt (d !! k))
  | _ => Raise (AttributeError_get v)
  end.

(** ** Settings ([src/core/config.py]) *)

Record Settings := {
  default_rate_limit : Z;
  rate_limit_window : Z;
  default_max_retries : Z;
  default_retry_delay : Z;
  exponential_backoff : bool;
  circuit_breaker_threshold : Z;
  circuit_breaker_timeout : Z
}.

(** The defaults of the class [Settings]. *)
Definition default_settings : Settings := {|
  default_rate_limit := 100;
  rate_limit_window := 60;
  default_max_retries := 3;
  default_retry_delay := 5;
  exponential_backoff := true;
  circuit_breaker_threshold := 5;
  circuit_breaker_timeout := 30
|}.

(** [timedelta(seconds=s)] in microseconds. *)
Definition seconds (s : Z) : Z := s * 1000000.

(** ** CircuitBreaker *)

Inductive CircuitState := CLOSED | OPEN | HALF_OPEN.

Global Instance CircuitState_eq_dec : EqDecision CircuitState.
Proof. solve_decision. Defined.

Record CircuitBreaker := {
  failure_count : Z;
  last_failure_time : option Z;
  state : CircuitState
}.

(** [CircuitBreaker()] *)
Definition new_breaker : CircuitBreaker :=
  {| failure_count := 0; last_failure_time := None; state := CLOSED |}.

Definition record_success (cb : CircuitBreaker) : CircuitBreaker :=
  {| failure_count := 0;
     last_failure_time := last_failure_time cb;
     state := CLOSED |}.

(** [now] is the reading of [datetime.utcnow()] the method takes. *)
Definition record_failure (st : Settings) (now : Z) (cb : CircuitBreaker)
  : CircuitBreaker :=
  let n := failure_count cb + 1 in
  {| failure_count := n;
     last_failure_time := Some now;
     state := if circuit_breaker_threshold st <=? n then OPEN else state cb |}.

(** [can_execute] answers and may move the breaker to [HALF_OPEN]. The
    clock is read only on the [OPEN] path with a failure time set;
    [now] is that reading. *)
Definition can_execute (st : Settings) (now : Z) (cb : CircuitBreaker)
  : bool * CircuitBreaker :=
  match state cb with
  | CLOSED => (true, cb)
  | OPEN =>
      match last_failure_time cb with
      | Some t =>
          if seconds (circuit_breaker_timeout st) <? now - t
          then (true, {| failure_count := failure_count cb;
                         last_failure_time := last_failure_time cb;
                         state := HALF_OPEN |})
          else (false, cb)
      | None => (false, cb)
      end
  | HALF_OPEN => (true, cb)
  end.

(** Whether [can_execute] reads the clock in this state. *)
Definition can_execute_reads_clock (cb : CircuitBreaker) : bool :=
  match state cb, last_failure_time cb with
  | OPEN, Some _ => true
  | _, _ => false
  end.

(** A call made on a breaker, with the clock reading it takes. *)
Inductive breaker_call :=
| RecordSuccess
| RecordFailure (now : Z)
| CanExecute (now : Z).

Definition apply_call (st : Settings) (cb : CircuitBreaker) (c : breaker_call)
  : CircuitBreaker :=
  match c with
  | RecordSuccess => record_success cb
  | RecordFailure now => record_failure st now cb
  | CanExecute now => snd (can_execute st now cb)
  end.

Definition run_calls (st : Settings) (cs : list breaker_call)
  (cb : CircuitBreaker) : CircuitBreaker :=
  fold_left (apply_call st) cs cb.

(** The cooldown has elapsed at [now]: the test of the [OPEN] path. *)
Definition cooldown_elapsed (st : Settings) (now : Z) (cb : CircuitBreaker)
  : bool :=
  match last_failure_time cb with
  | Some t => seconds (circuit_breaker_timeout st) <? now - t
  | None => false
  end.

(** The failures recorded since the last recorded success, counted on
    the sequence of calls itself. *)
Fixpoint failures_since_success (cs : list breaker_call) (acc : Z) : Z :=
  match cs with
  | [] => acc
  | RecordSuccess :: cs' => failures_since_success cs' 0
  | RecordFailure _ :: cs' => failures_since_success cs' (acc + 1)
  | CanExecute _ :: cs' => failures_since_success cs' acc
  end.

(** Whether a [can_execute] made after the last recorded failure came
    later than the cooldown of that failure: the call that an open
    breaker admits as a probe. [last] is the time of the last failure
    so far and [probed] the answer so far. *)
Fixpoint probed_since_failure (st : Settings) (cs : list breaker_call)
  (last : option Z) (probed : bool) : bool :=
  match cs with
  | [] => probed
  | RecordSuccess :: cs' => probed_since_failure st cs' last probed
  | RecordFailure now :: cs' => probed_since_failure st cs' (Some now) false
  | CanExecute now :: cs' =>
      probed_since_failure st cs' last
        (probed || match last with
                   | Some t => seconds (circuit_breaker_timeout st) <? now - t
                   | None => false
                   end)
  end.

(** The invariant of the data model. *)
Definition open_implies_tripped (st : Settings) (cb : CircuitBreaker) : Prop :=
  state cb = OPEN -> circuit_breaker_threshold st <= failure_count cb.

(** The flag [probed] tells an open breaker from a half-open one. *)
Definition probe_tracked (cb : CircuitBreaker) (probed : bool) : Prop :=
  (state cb = HALF_OPEN -> probed = true)
  /\ (state cb = OPEN -> probed = false).

(** ** Numbers

    CPython converts an [int] to a [float] by rounding to the nearest
    binary64 value, ties to even, and raises [OverflowError] when that
    value is not finite; [a / b] on two ints is the correctly rounded
    quotient; an [int] and a [float] are compared exactly. The three
    are written on the mantissa and exponent of the float, so they hold
    for integers of any size. *)

(** The float nearest to [z]; infinite beyond the range of floats. *)
Definition nearest_float (z : Z) : float :=
  SF2Prim (binary_normalize prec emax z 0 false).

(** The float nearest to [a / b], for a divisor that is not zero. *)
Definition quotient_float (a b : Z) : float :=
  let mantissa z :=
    match z with
    | Z0 => S754_zero false
    | Zpos p => S754_finite false p 0
    | Zneg p => S754_finite true p 0
    end in
  SF2Prim (SFdiv prec emax (mantissa a) (mantissa b)).

Definition ZeroDivisionError : pyexn :=
  PyExn "ZeroDivisionError" "division by zero" None.

Definition OverflowError (msg : string) : pyexn :=
  PyExn "OverflowError" msg None.

(** The least integer that rounds beyond the largest float: half an
    ulp above it. *)
Definition float_limit : Z := 2 ^ 1024 - 2 ^ 970.

(** [float(z)], as an arithmetic operator converts an int operand. *)
Definition float_of_int (z : Z) : result float :=
  if float_limit <=? Z.abs z
  then Raise (OverflowError "int too large to convert to float")
  else Ok (nearest_float z).

(** [a / b] on two ints. *)
Definition int_true_div (a b : Z) : result float :=
  if b =? 0 then Raise ZeroDivisionError
  else
    let f := quotient_float a b in
    if PrimFloat.is_infinity f
    then Raise (OverflowError "integer division result too large for a float")
    else Ok f.

(** [x < z] for a float [x] and an int [z]; false on a NaN. *)
Definition float_lt_int (x : float) (z : Z) : bool :=
  match Prim2SF x with
  | S754_nan => false
  | S754_infinity negative => negative
  | S754_zero _ => 0 <? z
  | S754_finite negative m e =>
      let v := if negative then Zneg m else Zpos m in
      if 0 <=? e then v * 2 ^ e <? z else v <? z * 2 ^ (- e)
  end.

(** A Python number that is an [int] or a [float]. *)
Inductive number :=
| NInt (z : Z)
| NFloat (f : float).

(** The number as the operand of a float addition. *)
Definition to_float (n : number) : result float :=
  match n with
  | NInt z => float_of_int z
  | NFloat f => Ok f
  end.

(** [n >= 1] *)
Definition at_least_one (n : number) : bool :=
  match n with
  | NInt z => 1 <=? z
  | NFloat f => PrimFloat.leb 1%float f
  end.

(** [n - 1] *)
Definition minus_one (n : number) : number :=
  match n with
  | NInt z => NInt (z - 1)
  | NFloat f => NFloat (PrimFloat.sub f 1%float)
  end.

(** ** RateLimiter *)

Record RateLimiter := {
  rate : Z;
  window : Z;
  tokens : number;
  last_update : Z
}.

(** [RateLimiter(rate, window)], built at the clock reading [now]. *)
Definition new_limiter (rate window now : Z) : RateLimiter :=
  {| rate := rate; window := window; tokens := NInt rate; last_update := now |}.

(** [(now - last_update).total_seconds()]: the microseconds of the
    [timedelta] divided by [10**6]. A [timedelta] is below [10**9]
    days, so the quotient is finite. *)
Definition total_seconds (delta : Z) : float :=
  quotient_float delta 1000000.

(** [tokens + elapsed * (rate / window)], a float. The division is
    evaluated first and raises on a zero window; the addition converts
    an int [tokens]. *)
Definition refilled (rl : RateLimiter) (now : Z) : result float :=
  let elapsed := total_seconds (now - last_update rl) in
  match int_true_div (rate rl) (window rl) with
  | Raise e => Raise e
  | Ok per_second =>
      match to_float (tokens rl) with
      | Raise e => Raise e
      | Ok held => Ok (PrimFloat.add held (PrimFloat.mul elapsed per_second))
      end
  end.

(** [min(a, b)] of an int [a] and a float [b]: [b] when [b < a], else
    the first argument. *)
Definition py_min (a : Z) (b : float) : number :=
  if float_lt_int b a then NFloat b else NInt a.

(** [acquire], with the clock reading [now] it takes. When the
    right-hand side of the assignment to [tokens] raises, nothing has
    been assigned. *)
Definition acquire (now : Z) (rl : RateLimiter) : result bool * RateLimiter :=
  match refilled rl now with
  | Raise e => (Raise e, rl)
  | Ok filled =>
      let t := py_min (rate rl) filled in
      if at_least_one t
      then (Ok true, {| rate := rate rl; window := window rl;
                        tokens := minus_one t; last_update := now |})
      else (Ok false, {| rate := rate rl; window := window rl;
                         tokens := t; last_update := now |})
  end.

(** A sequence of [acquire] calls at the given clock readings: the
    answers and the limiter left. *)
Fixpoint acquire_all (times : list Z) (rl : RateLimiter)
  : list (result bool) * RateLimiter :=
  match times with
  | [] => ([], rl)
  | now :: times' =>
      let '(r, rl1) := acquire now rl in
      let '(rs, rl2) := acquire_all times' rl1 in
      (r :: rs, rl2)
  end.

(** The limiter with its clock moved by [s] microseconds. *)
Definition moved (s : Z) (rl : RateLimiter) : RateLimiter :=
  {| rate := rate rl; window := window rl; tokens := tokens rl;
     last_update := last_update rl + s |}.

(** A limiter of two tokens a minute, created and emptied at [t0] by
    three calls, then asked three times [wait] microseconds later. *)
Definition burst_then_wait (t0 wait : Z) : list (result bool) :=
  fst (acquire_all [t0; t0; t0; t0 + wait; t0 + wait; t0 + wait]
         (new_limiter 2 60 t0)).

(** What a bucket of two tokens a minute has to answer there: a token
    every thirty seconds, two at most. *)
Definition burst_then_wait_answers (wait : Z) : list bool :=
  [true; true; false; seconds 30 <=? wait; seconds 60 <=? wait; false].

(** The answers are these booleans, none of them an exception. *)
Fixpoint same_answers (rs : list (result bool)) (bs : list bool) : bool :=
  match rs, bs with
  | [], [] => true
  | Ok r :: rs', b :: bs' => Bool.eqb r b && same_answers rs' bs'
  | _, _ => false
  end.

(** The waits [from], [from + step], ... below [from + n * step]. *)
Definition waits (from step : Z) (n : nat) : list Z :=
  map (fun k => from + Z.of_nat k * step) (seq 0 n).

Definition answers_as_expected (wait : Z) : bool :=
  same_answers (burst_then_wait 0 wait) (burst_then_wait_answers wait).

(** ** The process: registries, clock and network *)

Record Request := {
  req_method : string;
  req_url : string;
  req_headers : value;
  req_data : value;
  req_json : value;
  req_timeout : Z
}.

(** What [response.content] holds: nothing, a JSON document, or bytes
    on which [response.json()] raises. *)
Inductive Content :=
| Empty
| JsonBody (v : value)
| NotJson (e : pyexn).

Record Response := {
  status_code : Z;
  headers : gmap string string;
  content : Content
}.

(** One [client.request(...)] followed by [raise_for_status()]: either
    of them raises, or the response is accepted. *)
Inductive attempt_outcome :=
| NoResponse (e : pyexn)
| Accepted (r : Response).

Inductive event :=
| Sent (r : Request)
| Slept (d : number).

(** The module-level objects of the process ([http_client]'s two
    registries) and what it has done to its environment: clock
    readings taken, requests issued, and the trace of requests and
    sleeps. *)
Record World := {
  circuit_breakers : gmap string CircuitBreaker;
  rate_limiters : gmap string RateLimiter;
  reads : nat;
  calls : nat;
  trace : list event
}.

Definition fresh_world : World :=
  {| circuit_breakers := ∅; rate_limiters := ∅;
     reads := 0; calls := 0; trace := [] |}.

Definition set_breakers (f : gmap string CircuitBreaker -> gmap string CircuitBreaker)
  (w : World) : World :=
  {| circuit_breakers := f (circuit_breakers w);
     rate_limiters := rate_limiters w;
     reads := reads w; calls := calls w; trace := trace w |}.

Definition set_limiters (f : gmap string RateLimiter -> gmap string RateLimiter)
  (w : World) : World :=
  {| circuit_breakers := circuit_breakers w;
     rate_limiters := f (rate_limiters w);
     reads := reads w; calls := calls w; trace := trace w |}.

(** ** The monad of code that may raise *)

Definition M (A : Type) : Type := World -> result A * World.

Definition ret {A} (a : A) : M A := fun w => (Ok a, w).

Definition raise {A} (e : pyexn) : M A := fun w => (Raise e, w).

Definition bind {A B} (m : M A) (k : A -> M B) : M B :=
  fun w =>
    match m w with
    | (Ok a, w1) => k a w1
    | (Raise e, w1) => (Raise e, w1)
    end.

(** [try: m] with the outcome handed to the caller: what
    [except Exception as e] sees. Every exception of the model derives
    from [Exception], so the handler sees each of them. *)
Definition try_ {A} (m : M A) : M (result A) :=
  fun w => let '(r, w1) := m w in (Ok r, w1).

Notation "'let*' x ':=' m 'in' k" := (bind m (fun x => k))
  (at level 10, x name, m at level 100, k at level 200).

(** What the process runs in: the [settings] singleton, read at each
    use, the wall clock (the [i]-th [datetime.utcnow()] of the process
    reads [utcnow_at i]) and the network (the [i]-th request of the
    process is answered by [transport i]). *)
Record Env := {
  settings : Settings;
  utcnow_at : nat -> Z;
  transport : nat -> Request -> attempt_outcome
}.

(** [datetime.utcnow()] *)
Definition utcnow (env : Env) : M Z :=
  fun w =>
    (Ok (utcnow_at env (reads w)),
     {| circuit_breakers := circuit_breakers w;
        rate_limiters := rate_limiters w;
        reads := S (reads w); calls := calls w; trace := trace w |}).

(** [await asyncio.sleep(d)] for a number [d]. *)
Definition sleep (d : number) : M unit :=
  fun w =>
    (Ok tt,
     {| circuit_breakers := circuit_breakers w;
        rate_limiters := rate_limiters w;
        reads := reads w; calls := calls w;
        trace := trace w ++ [Slept d] |}).

(** [await client.request(...)] and [response.raise_for_status()]. *)
Definition send (env : Env) (r : Request) : M Response :=
  fun w =>
    let w1 := {| circuit_breakers := circuit_breakers w;
                 rate_limiters := rate_limiters w;
                 reads := reads w; calls := S (calls w);
                 trace := trace w ++ [Sent r] |} in
    match transport env (calls w) r with
    | NoResponse e => (Raise e, w1)
    | Accepted resp => (Ok resp, w1)
    end.

(** ** IntegrationHttpClient

    A breaker or a limiter handed out by the registry is the object
    stored there, never a copy: the model names it by its key. *)

Definition _get_circuit_breaker (connector_id : string) : M string :=
  fun w =>
    match circuit_breakers w !! connector_id with
    | Some _ => (Ok connector_id, w)
    | None => (Ok connector_id, set_breakers <[connector_id := new_breaker]> w)
    end.

(** [rate or settings.default_rate_limit] *)
Definition or_default (x : option Z) (dflt : Z) : Z :=
  match x with
  | Some z => if z =? 0 then dflt else z
  | None => dflt
  end.

Definition _get_rate_limiter (env : Env) (connector_id : string)
  (rate : option Z) : M string :=
  fun w =>
    match rate_limiters w !! connector_id with
    | Some _ => (Ok connector_id, w)
    | None =>
        (let* now := utcnow env in
         fun w1 =>
           (Ok connector_id,
            set_limiters
              <[connector_id :=
                  new_limiter (or_default rate (default_rate_limit (settings env)))
                              (rate_limit_window (settings env)) now]> w1)) w
    end.

(** The methods, called on a registered object. *)
Definition breaker_record_success (cb : string) : M unit :=
  fun w => (Ok tt, set_breakers (alter record_success cb) w).

Definition breaker_record_failure (env : Env) (cb : string) : M unit :=
  let* now := utcnow env in
  fun w => (Ok tt, set_breakers (alter (record_failure (settings env) now) cb) w).

Definition breaker_can_execute (env : Env) (cb : string) : M bool :=
  fun w =>
    match circuit_breakers w !! cb with
    | Some b =>
        if can_execute_reads_clock b
        then (let* now := utcnow env in
              fun w1 =>
                let '(ok, b1) := can_execute (settings env) now b in
                (Ok ok, set_breakers <[cb := b1]> w1)) w
        else
          let '(ok, b1) := can_execute (settings env) 0 b in
          (Ok ok, set_breakers <[cb := b1]> w)
    | None => (Raise (PyExn "KeyError" cb None), w)
    end.

Definition limiter_acquire (env : Env) (rl : string) : M bool :=
  fun w =>
    match rate_limiters w !! rl with
    | Some l =>
        (let* now := utcnow env in
         fun w1 =>
           let '(r, l1) := acquire now l in
           (r, set_limiters <[rl := l1]> w1)) w
    | None => (Raise (PyExn "KeyError" rl None), w)
    end.

(** [range(n)] *)
Definition py_range (n : Z) : list Z :=
  Z.of_nat <$> seq 0 (Z.to_nat n).

(** The mapping returned for an accepted response. *)
Definition response_summary (resp : Response) (body : value)
  : gmap string value :=
  {[ "status_code" := VInt (status_code resp);
     "headers" := VDict (VStr <$> headers resp);
     "body" := body ]}.

(** The [try] block of one attempt (lines 124-141). *)
Definition attempt_once (env : Env) (cb : string) (req : Request)
  : M (gmap string value) :=
  let* resp := send env req in
  let* _ := breaker_record_success cb in
  let* body := match content resp with
               | Empty => ret VNone
               | JsonBody v => ret v
               | NotJson e => raise e
               end in
  ret (response_summary resp body).

(** The delay slept after failed attempt number [attempt]. *)
Definition retry_delay (st : Settings) (attempt : Z) : Z :=
  if exponential_backoff st
  then default_retry_delay st * 2 ^ attempt
  else default_retry_delay st.

(** [raise last_exception] *)
Definition raise_last {A} (last_exception : option pyexn) : M A :=
  match last_exception with
  | Some e => raise e
  | None => raise (PyExn "TypeError"
                         "exceptions must derive from BaseException" None)
  end.

(** The [for attempt in range(max_retries + 1)] loop over the attempts
    still to make, and the [raise] after it. *)
Fixpoint attempt_loop (env : Env) (cb : string) (req : Request)
  (max_retries : Z) (attempts : list Z) (last_exception : option pyexn)
  : M (gmap string value) :=
  match attempts with
  | [] => raise_last last_exception
  | attempt :: rest =>
      let* r := try_ (attempt_once env cb req) in
      match r with
      | Ok summary => ret summary
      | Raise e =>
          let* _ := breaker_record_failure env cb in
          let* _ := (if attempt <? max_retries
                     then sleep (NInt (retry_delay (settings env) attempt))
                     else ret tt) in
          attempt_loop env cb req max_retries rest (Some e)
      end
  end.

(** The two guards (lines 110-117): the call is rejected before any
    attempt when the breaker or the limiter says no. *)
Definition request_guards (env : Env) (connector_id : string) : M string :=
  let* circuit_breaker := _get_circuit_breaker connector_id in
  let* rate_limiter := _get_rate_limiter env connector_id None in
  let* ok := breaker_can_execute env circuit_breaker in
  if negb ok
  then raise (PyExn "Exception"
                ("Circuit breaker open for connector " +:+ connector_id) None)
  else
    let* got := limiter_acquire env rate_limiter in
    if negb got
    then raise (PyExn "Exception"
                  ("Rate limit exceeded for connector " +:+ connector_id) None)
    else ret circuit_breaker.

(** [retries or settings.default_max_retries] *)
Definition resolve_max_retries (env : Env) (retries : option Z) : Z :=
  or_default retries (default_max_retries (settings env)).

(** [IntegrationHttpClient.request] *)
Definition request (env : Env) (connector_id : string) (req : Request)
  (retries : option Z) : M (gmap string value) :=
  let* circuit_breaker := request_guards env connector_id in
  let max_retries := resolve_max_retries env retries in
  attempt_loop env circuit_breaker req max_retries
    (py_range (max_retries + 1)) None.

(** The exception an attempt ends in, if it fails. *)
Definition attempt_error (o : attempt_outcome) : option pyexn :=
  match o with
  | NoResponse e => Some e
  | Accepted resp =>
      match content resp with
      | NotJson e => Some e
      | _ => None
      end
  end.

(** What a run of attempts that all fail leaves in the trace: each
    attempt sends, and each but the last of [range(max_retries + 1)]
    then sleeps. *)
Definition failed_attempts_trace (st : Settings) (req : Request)
  (max_retries : Z) (attempts : list Z) : list event :=
  flat_map (fun attempt =>
              Sent req ::
              (if attempt <? max_retries
               then [Slept (NInt (retry_delay st attempt))] else []))
           attempts.


(** ** Workflow engine: data model *)

Inductive StepType :=
| HTTP_REQUEST | TRANSFORM | CONDITION | LOOP | PARALLEL | DELAY.

Global Instance StepType_eq_dec : EqDecision StepType.
Proof. solve_decision. Defined.

(** The [.value] of a member. *)
Definition StepType_value (t : StepType) : string :=
  match t with
  | HTTP_REQUEST => "http_request"
  | TRANSFORM => "transform"
  | CONDITION => "condition"
  | LOOP => "loop"
  | PARALLEL => "parallel"
  | DELAY => "delay"
  end.

Definition all_step_types : list StepType :=
  [HTTP_REQUEST; TRANSFORM; CONDITION; LOOP; PARALLEL; DELAY].

(** [repr(v)] as the enum's error message shows it; spelled out for
    [None] and for strings without quotes or escapes, abbreviated to
    the type's name otherwise. *)
Definition short_repr (v : value) : string :=
  match v with
  | VNone => "None"
  | VStr s => "'" +:+ s +:+ "'"
  | _ => "<" +:+ type_name v +:+ ">"
  end.

(** [StepType(v)]: the member whose value is [v], or [ValueError]. *)
Definition StepType_of (v : value) : result StepType :=
  match v with
  | VStr s =>
      match find (fun t => String.eqb (StepType_value t) s) all_step_types with
      | Some t => Ok t
      | None => Raise (PyExn "ValueError"
                         (short_repr v +:+ " is not a valid StepType") None)
      end
  | _ => Raise (PyExn "ValueError"
                  (short_repr v +:+ " is not a valid StepType") None)
  end.

Inductive ExecutionStatus :=
| PENDING | RUNNING | COMPLETED | FAILED | CANCELLED.

Global Instance ExecutionStatus_eq_dec : EqDecision ExecutionStatus.
Proof. solve_decision. Defined.

Definition ExecutionStatus_value (s : ExecutionStatus) : string :=
  match s with
  | PENDING => "pending"
  | RUNNING => "running"
  | COMPLETED => "completed"
  | FAILED => "failed"
  | CANCELLED => "cancelled"
  end.

Record StepResult := {
  step_id : value;
  status : ExecutionStatus;
  output : option (gmap string value);
  error : option string;
  started_at : option Z;
  completed_at : option Z
}.

(** [execution_id] is the clock reading whose timestamp the id string
    ["exec_..."] is formatted from. *)
Record ExecutionContext := {
  execution_id : Z;
  workflow_id : string;
  input_data : gmap string value;
  variables : gmap string value;
  step_results : list StepResult
}.

(** One entry of the report's ["step_results"]. *)
Record StepEntry := {
  entry_step_id : value;
  entry_status : string;
  entry_output : option (gmap string value);
  entry_error : option string
}.

(** The mapping [execute_workflow] returns. *)
Record Report := {
  report_execution_id : Z;
  report_status : string;
  report_step_results : list StepEntry
}.

(** ** Workflow engine: operations *)

Definition lift {A} (r : result A) : M A := fun w => (r, w).

(** [await asyncio.sleep(delay)] on an arbitrary value: the
    [delay <= 0] test raises on what is not a number; a delay that is
    not positive yields once and returns; a NaN is refused; a positive
    int is added to the loop's clock, a float, and raises when it is
    beyond the range of floats. Every sleep that is started ends: a
    delay of [inf], which the event loop never ends, is outside the
    model. *)
Definition asyncio_sleep (delay : value) : M unit :=
  match delay with
  | VInt z =>
      if z <=? 0 then sleep (NInt z)
      else match float_of_int z with
           | Raise e => raise e
           | Ok _ => sleep (NInt z)
           end
  | VBool b => sleep (NInt (if b then 1 else 0))
  | VFloat f =>
      if PrimFloat.is_nan f
      then raise (PyExn "ValueError" "Invalid delay: NaN not supported" None)
      else sleep (NFloat f)
  | v => raise (PyExn "TypeError"
                  ("'<=' not supported between instances of '"
                   +:+ type_name v +:+ "' and 'int'") None)
  end.

Definition _execute_http_request (config : value) (context : ExecutionContext)
  : M (gmap string value) :=
  ret {[ "response" := VStr "placeholder" ]}.

Definition _execute_transform (config : value) (context : ExecutionContext)
  : M (gmap string value) :=
  ret {[ "transformed" := VBool true ]}.

Definition _execute_condition (config : value) (context : ExecutionContext)
  : M (gmap string value) :=
  ret {[ "branch" := VStr "default" ]}.

Definition _execute_delay (config : value) (context : ExecutionContext)
  : M (gmap string value) :=
  let* delay_seconds := lift (py_get config "seconds" (VInt 0)) in
  let* _ := asyncio_sleep delay_seconds in
  ret {[ "delayed_seconds" := delay_seconds ]}.

(** The [if]/[elif] chain inside the [try] of [_execute_step]. *)
Definition dispatch (step_type : StepType) (config : value)
  (context : ExecutionContext) : M (gmap string value) :=
  match step_type with
  | HTTP_REQUEST => _execute_http_request config context
  | TRANSFORM => _execute_transform config context
  | CONDITION => _execute_condition config context
  | DELAY => _execute_delay config context
  | LOOP | PARALLEL => ret ∅
  end.

Definition _execute_step (env : Env) (step : value) (context : ExecutionContext)
  : M StepResult :=
  let* step_id := lift (py_get step "id" VNone) in
  let* type := lift (py_get step "type" VNone) in
  let* step_type := lift (StepType_of type) in
  let* config := lift (py_get step "config" (VDict ∅)) in
  let* started := utcnow env in
  let* r := try_ (dispatch step_type config context) in
  let* completed := utcnow env in
  ret match r with
      | Ok out =>
          {| step_id := step_id; status := COMPLETED; output := Some out;
             error := None; started_at := Some started;
             completed_at := Some completed |}
      | Raise e =>
          {| step_id := step_id; status := FAILED; output := None;
             error := Some (exn_str e); started_at := Some started;
             completed_at := Some completed |}
      end.

Definition _determine_final_status (context : ExecutionContext) : string :=
  if existsb (fun r => bool_decide (status r = FAILED)) (step_results context)
  then "failed"
  else if forallb (fun r => bool_decide (status r = COMPLETED))
                  (step_results context)
  then "completed"
  else "partial".

(** [for step in steps]: the items a value yields. A dict yields its
    keys (in the map's order here; every key is a [str], on which the
    loop body raises at once whatever the order). *)
Definition py_iter (v : value) : result (list value) :=
  match v with
  | VList l => Ok l
  | VStr s => Ok ((fun a => VStr (String a EmptyString)) <$> String.list_ascii_of_string s)
  | VDict d => Ok ((fun kv => VStr (fst kv)) <$> map_to_list d)
  | _ => Raise (PyExn "TypeError"
                  ("'" +:+ type_name v +:+ "' object is not iterable") None)
  end.

Definition append_result (r : StepResult) (context : ExecutionContext)
  : ExecutionContext :=
  {| execution_id := execution_id context;
     workflow_id := workflow_id context;
     input_data := input_data context;
     variables := variables context;
     step_results := step_results context ++ [r] |}.

(** One turn of the loop (lines 75-82): the context after the append,
    and whether the loop breaks. *)
Definition loop_body (env : Env) (workflow_config : gmap string value)
  (step : value) (context : ExecutionContext) : M (bool * ExecutionContext) :=
  let* r := _execute_step env step context in
  let context1 := append_result r context in
  if bool_decide (status r = FAILED)
  then
    let error_handling :=
      default (VDict ∅) (workflow_config !! "error_handling") in
    let* stop := lift (py_get error_handling "stop_on_error" (VBool true)) in
    ret (truthy stop, context1)
  else ret (false, context1).

Fixpoint run_steps (env : Env) (workflow_config : gmap string value)
  (steps : list value) (context : ExecutionContext) : M ExecutionContext :=
  match steps with
  | [] => ret context
  | step :: rest =>
      let* bc := loop_body env workflow_config step context in
      if fst bc then ret (snd bc)
      else run_steps env workflow_config rest (snd bc)
  end.

Definition entry_of (r : StepResult) : StepEntry :=
  {| entry_step_id := step_id r;
     entry_status := ExecutionStatus_value (status r);
     entry_output := output r;
     entry_error := error r |}.

Definition report_of (context : ExecutionContext) : Report :=
  {| report_execution_id := execution_id context;
     report_status := _determine_final_status context;
     report_step_results := entry_of <$> step_results context |}.

Definition new_context (env : Env) (workflow_id : string)
  (input_data : gmap string value) : M ExecutionContext :=
  let* now := utcnow env in
  ret {| execution_id := now; workflow_id := workflow_id;
         input_data := input_data; variables := ∅; step_results := [] |}.

(** [workflow_config.get("steps", [])], iterated. *)
Definition steps_of (workflow_config : gmap string value) : result (list value) :=
  py_iter (default (VList []) (workflow_config !! "steps")).

Definition execute_workflow (env : Env) (workflow_id : string)
  (workflow_config : gmap string value) (input_data : gmap string value)
  : M Report :=
  let* context := new_context env workflow_id input_data in
  let* steps := lift (steps_of workflow_config) in
  let* context1 := run_steps env workflow_config steps context in
  ret (report_of context1).

(** ** The cancel endpoint ([src/api/executions.py])

    [cancelled_at] holds the clock reading the ISO string is formatted
    from. *)
Definition cancel_execution (env : Env) (execution_id : Z)
  : M (gmap string value) :=
  let* now := utcnow env in
  ret {[ "execution_id" := VInt execution_id;
         "status" := VStr "cancelled";
         "cancelled_at" := VInt now ]}.

(** A run during which the process serves [cancel_execution] for this
    very execution once [k] steps have been executed ([countdown =
    Some k]); the request is served between two turns of the loop. *)
Fixpoint run_steps_cancelled (env : Env) (workflow_config : gmap string value)
  (countdown : option nat) (steps : list value) (context : ExecutionContext)
  : M ExecutionContext :=
  match steps with
  | [] => ret context
  | step :: rest =>
      let* _ := match countdown with
                | Some O => let* _ := cancel_execution env (execution_id context) in
                            ret tt
                | _ => ret tt
                end in
      let* bc := loop_body env workflow_config step context in
      if fst bc then ret (snd bc)
      else run_steps_cancelled env workflow_config
             (match countdown with Some (S k) => Some k | _ => None end)
             rest (snd bc)
  end.

Definition execute_workflow_cancelled (env : Env) (k : nat)
  (workflow_id : string) (workflow_config : gmap string value)
  (input_data : gmap string value) : M Report :=
  let* context := new_context env workflow_id input_data in
  let* steps := lift (steps_of workflow_config) in
  let* context1 := run_steps_cancelled env workflow_config (Some k) steps context in
  ret (report_of context1).


(** ** Sample environment, used to run the definitions *)

Definition connect_error : pyexn :=
  PyExn "ConnectError" "All connection attempts failed" None.

(** A target on which every attempt fails to connect. *)
Definition failing_env : Env :=
  {| settings := default_settings;
     utcnow_at := fun i => seconds (Z.of_nat i);
     transport := fun _ _ => NoResponse connect_error |}.

Definition sample_request : Request :=
  {| req_method := "GET"; req_url := "https://crm.example/api/contacts";
     req_headers := VNone; req_data := VNone; req_json := VNone;
     req_timeout := 30 |}.

(** A computation leaves an observation [f] of the world alone. *)
Definition preserves {A X} (f : World -> X) (m : M A) : Prop :=
  forall w, f (snd (m w)) = f w.

(** What the network sees of a world. *)
Definition network_view (w : World) : nat * list event := (calls w, trace w).


(** ** What a run reports, as a function of the workflow alone

    The report's entries do not depend on the clock, the world or the
    context: the functions below compute them from the steps, and are
    proved to agree with [_execute_step], [run_steps] and
    [execute_workflow]. *)

Definition rmap {A B} (f : A -> B) (r : result A) : result B :=
  match r with
  | Ok a => Ok (f a)
  | Raise e => Raise e
  end.

Definition rbind {A B} (r : result A) (k : A -> result B) : result B :=
  match r with
  | Ok a => k a
  | Raise e => Raise e
  end.

Definition empty_context : ExecutionContext :=
  {| execution_id := 0; workflow_id := ""; input_data := ∅;
     variables := ∅; step_results := [] |}.

(** What the handler of a step returns or raises. *)
Definition dispatch_outcome (step_type : StepType) (config : value)
  : result (gmap string value) :=
  fst (dispatch step_type config empty_context fresh_world).

(** The entry a step contributes, or the exception that escapes
    [_execute_step]. *)
Definition step_entry (step : value) : result StepEntry :=
  rbind (py_get step "id" VNone) (fun step_id =>
  rbind (py_get step "type" VNone) (fun type =>
  rbind (StepType_of type) (fun step_type =>
  rbind (py_get step "config" (VDict ∅)) (fun config =>
  Ok match dispatch_outcome step_type config with
     | Ok out =>
         {| entry_step_id := step_id; entry_status := "completed";
            entry_output := Some out; entry_error := None |}
     | Raise e =>
         {| entry_step_id := step_id; entry_status := "failed";
            entry_output := None; entry_error := Some (exn_str e) |}
     end)))).

(** [error_handling.get("stop_on_error", True)], as the [if] reads it. *)
Definition stop_on_error (workflow_config : gmap string value) : result bool :=
  rmap truthy
    (py_get (default (VDict ∅) (workflow_config !! "error_handling"))
            "stop_on_error" (VBool true)).

Definition entry_failed (en : StepEntry) : bool :=
  String.eqb (entry_status en) "failed".

Definition entry_completed (en : StepEntry) : bool :=
  String.eqb (entry_status en) "completed".

(** Whether the loop breaks after this entry. *)
Definition breaks_after (workflow_config : gmap string value) (en : StepEntry)
  : result bool :=
  if entry_failed en then stop_on_error workflow_config else Ok false.

Fixpoint run_entries (workflow_config : gmap string value) (steps : list value)
  : result (list StepEntry) :=
  match steps with
  | [] => Ok []
  | step :: rest =>
      rbind (step_entry step) (fun en =>
      rbind (breaks_after workflow_config en) (fun stop =>
      if stop then Ok [en]
      else rmap (cons en) (run_entries workflow_config rest)))
  end.

(** The three-way rule of [_determine_final_status], on entries. *)
Definition final_status_of (es : list StepEntry) : string :=
  if existsb entry_failed es then "failed"
  else if forallb entry_completed es then "completed"
  else "partial".

Definition report_entries (workflow_config : gmap string value)
  : result (list StepEntry) :=
  rbind (steps_of workflow_config) (run_entries workflow_config).

(** What the resilient client and the network see of a world. *)
Definition client_view (w : World)
  : nat * list Request * gmap string CircuitBreaker * gmap string RateLimiter :=
  (calls w,
   omap (fun ev => match ev with Sent r => Some r | Slept _ => None end) (trace w),
   circuit_breakers w, rate_limiters w).

(** A step as a workflow definition spells it. *)
Definition make_step (id type : string) (config : gmap string value) : value :=
  VDict {[ "id" := VStr id; "type" := VStr type; "config" := VDict config ]}.

(** A target that answers every request with [200 {"ok": true}]. *)
Definition healthy_env : Env :=
  {| settings := default_settings;
     utcnow_at := fun i => seconds (Z.of_nat i);
     transport := fun _ _ =>
       Accepted {| status_code := 200;
                   headers := {[ "content-type" := "application/json" ]};
                   content := JsonBody (VDict {[ "ok" := VBool true ]}) |} |}.


(** What a report shows of a context. *)
Definition context_view (c : ExecutionContext) : Z * list StepEntry :=
  (execution_id c, entry_of <$> step_results c).

(** The report of a run with the clock reading it takes its id from. *)
Definition report_with (id : Z) (es : list StepEntry) : Report :=
  {| report_execution_id := id;
     report_status := final_status_of es;
     report_step_results := es |}.

(** ** Sample workflows *)

(** One step of a kind the enum does not declare. *)
Definition unknown_kind_workflow : gmap string value :=
  {[ "steps" := VList [make_step "s1" "webhook" ∅] ]}.

(** A delay whose [seconds] is no number, then a transform. *)
Definition bad_delay_workflow : gmap string value :=
  {[ "steps" := VList [make_step "wait" "delay" {[ "seconds" := VStr "soon" ]};
                       make_step "map" "transform" ∅] ]}.

(** The same steps under [stop_on_error = False]. *)
Definition lenient_workflow : gmap string value :=
  <[ "error_handling" := VDict {[ "stop_on_error" := VBool false ]} ]>
    bad_delay_workflow.

(** Under [stop_on_error = False]: a delay that fails, a step of an
    undeclared kind, then a transform. *)
Definition lenient_unknown_kind_workflow : gmap string value :=
  {[ "error_handling" := VDict {[ "stop_on_error" := VBool false ]};
     "steps" := VList [make_step "wait" "delay" {[ "seconds" := VStr "soon" ]};
                       make_step "s2" "webhook" ∅;
                       make_step "map" "transform" ∅] ]}.

Definition http_workflow : gmap string value :=
  {[ "steps" := VList [make_step "fetch" "http_request"
                         {[ "url" := VStr "https://crm.example/api/contacts";
                            "method" := VStr "GET" ]}] ]}.

Definition loop_parallel_workflow : gmap string value :=
  {[ "steps" := VList [make_step "each" "loop" ∅;
                       make_step "fan" "parallel" ∅] ]}.

Definition five_step_workflow : gmap string value :=
  {[ "steps" := VList [make_step "s1" "transform" ∅;
                       make_step "s2" "delay" {[ "seconds" := VInt 1 ]};
                       make_step "s3" "http_request" ∅;
                       make_step "s4" "condition" ∅;
                       make_step "s5" "transform" ∅] ]}.

Definition placeholder_output : gmap string value :=
  {[ "response" := VStr "placeholder" ]}.

(** An entry is terminal the way the engine makes them. *)
Definition completed_or_failed (en : StepEntry) : Prop :=
  entry_status en = "completed" \/ entry_status en = "failed".



(** ** Shapes and views used by the further properties *)

(** A breaker that is not closed has reached the threshold and
    remembers when it last failed. *)
Definition tripped_shape (st : Settings) (cb : CircuitBreaker) : Prop :=
  state cb <> CLOSED ->
  circuit_breaker_threshold st <= failure_count cb
  /\ is_Some (last_failure_time cb).

(** A closed breaker is below the threshold. *)
Definition closed_shape (st : Settings) (cb : CircuitBreaker) : Prop :=
  state cb = CLOSED -> failure_count cb < circuit_breaker_threshold st.

(** What one attempt does to the breaker of its connector:
    [record_success] once the response is accepted, [record_failure]
    once the [try] block has raised; a response accepted and then
    found not to be JSON gets both, in that order. *)
Definition breaker_after_attempt (st : Settings) (now : Z)
  (o : attempt_outcome) (b : CircuitBreaker) : CircuitBreaker :=
  match o with
  | NoResponse _ => record_failure st now b
  | Accepted resp =>
      match content resp with
      | NotJson _ => record_failure st now (record_success b)
      | _ => record_success b
      end
  end.

(** The same on the registry. *)
Definition breakers_after_attempt (st : Settings) (now : Z) (cb : string)
  (o : attempt_outcome) (m : gmap string CircuitBreaker)
  : gmap string CircuitBreaker :=
  match o with
  | NoResponse _ => alter (record_failure st now) cb m
  | Accepted resp =>
      match content resp with
      | NotJson _ => alter (record_failure st now) cb (alter record_success cb m)
      | _ => alter record_success cb m
      end
  end.

(** The world a failed attempt leaves before the next turn of the
    loop. *)
Definition after_failed_attempt (env : Env) (cb : string) (req : Request)
  (max_retries attempt : Z) (w : World) : World :=
  {| circuit_breakers :=
       breakers_after_attempt (settings env) (utcnow_at env (reads w)) cb
         (transport env (calls w) req) (circuit_breakers w);
     rate_limiters := rate_limiters w;
     reads := S (reads w);
     calls := S (calls w);
     trace := if attempt <? max_retries
              then (trace w ++ [Sent req])
                   ++ [Slept (NInt (retry_delay (settings env) attempt))]
              else trace w ++ [Sent req] |}.

(** The body handed back for an accepted response. *)
Definition body_of (c : Content) : option value :=
  match c with
  | Empty => Some VNone
  | JsonBody v => Some v
  | NotJson _ => None
  end.

(** What the registries hold for one connector. *)
Definition connector_view (id : string) (w : World)
  : option CircuitBreaker * option RateLimiter :=
  (circuit_breakers w !! id, rate_limiters w !! id).

(** No entry of either registry is lost. *)
Definition registry_grows (w w' : World) : Prop :=
  forall k,
    (is_Some (circuit_breakers w !! k) -> is_Some (circuit_breakers w' !! k))
    /\ (is_Some (rate_limiters w !! k) -> is_Some (rate_limiters w' !! k)).

Definition grows {A} (m : M A) : Prop :=
  forall w, registry_grows w (snd (m w)).

(** The values a computation can return satisfy [P]. *)
Definition returns {A} (P : A -> Prop) (m : M A) : Prop :=
  forall w a, fst (m w) = Ok a -> P a.

Definition circuit_open_error (connector_id : string) : pyexn :=
  PyExn "Exception" ("Circuit breaker open for connector " +:+ connector_id) None.

Definition rate_limit_error (connector_id : string) : pyexn :=
  PyExn "Exception" ("Rate limit exceeded for connector " +:+ connector_id) None.

(** A target that answers [200] with a body that is not JSON. *)
Definition not_json_env : Env :=
  {| settings := default_settings;
     utcnow_at := fun i => seconds (Z.of_nat i);
     transport := fun _ _ =>
       Accepted {| status_code := 200;
                   headers := ∅;
                   content := NotJson
                     (PyExn "JSONDecodeError"
                        "Expecting value: line 1 column 1 (char 0)" None) |} |}.

(** The default settings with a zero rate-limit window. *)
Definition zero_window_env : Env :=
  {| settings := {| default_rate_limit := 100;
                    rate_limit_window := 0;
                    default_max_retries := 3;
                    default_retry_delay := 5;
                    exponential_backoff := true;
                    circuit_breaker_threshold := 5;
                    circuit_breaker_timeout := 30 |};
     utcnow_at := fun i => seconds (Z.of_nat i);
     transport := transport healthy_env |}.

(** An entry carries an output or an error, never both. *)
Definition entry_consistent (en : StepEntry) : Prop :=
  (entry_status en = "completed" /\ is_Some (entry_output en)
   /\ entry_error en = None)
  \/ (entry_status en = "failed" /\ entry_output en = None
      /\ is_Some (entry_error en)).

(** [step.get("id")] of a step that is a mapping. *)
Definition step_id_of (step : value) : value :=
  match py_get step "id" VNone with
  | Ok v => v
  | Raise _ => VNone
  end.

(** The exceptions that can leave [execute_workflow]: the steps are
    not iterable, a step or the policy is no mapping, or a step's
    type is no declared kind. *)
Definition escaping (e : pyexn) : Prop :=
  (exists v, e = PyExn "TypeError"
                   ("'" +:+ type_name v +:+ "' object is not iterable") None)
  \/ (exists v, e = AttributeError_get v)
  \/ (exists v, e = PyExn "ValueError"
                      (short_repr v +:+ " is not a valid StepType") None).

(** The capacity and the window a connector's limiter was built with. *)
Definition limiter_shape (id : string) (w : World) : option (Z * Z) :=
  (fun l => (rate l, window l)) <$> rate_limiters w !! id.

(** * Properties *)

(** ** CircuitBreaker *)

Section BreakerFacts.
Variable st : Settings.

Lemma apply_call_invariant cb c :
  open_implies_tripped st cb -> open_implies_tripped st (apply_call st cb c).
Proof.
  unfold open_implies_tripped.
  destruct c as [|now|now]; simpl; intros Hinv.
  - discriminate.
  - destruct (Z.leb_spec (circuit_breaker_threshold st) (failure_count cb + 1));
      intros Hopen; [assumption | specialize (Hinv Hopen); lia].
  - unfold can_execute.
    destruct (state cb) eqn:Hs; simpl; try (rewrite Hs; discriminate).
    destruct (last_failure_time cb) as [t|]; simpl; [| tauto].
    destruct (_ <? _); simpl; [discriminate | tauto].
Qed.

Lemma run_calls_invariant cs cb :
  open_implies_tripped st cb -> open_implies_tripped st (run_calls st cs cb).
Proof.
  revert cb. induction cs as [|c cs IH]; intros cb Hinv; simpl; [assumption|].
  apply IH, apply_call_invariant, Hinv.
Qed.

Lemma run_calls_count cs cb :
  failure_count (run_calls st cs cb)
  = failures_since_success cs (failure_count cb).
Proof.
  unfold run_calls.
  revert cb. induction cs as [|c cs IH]; intros cb; simpl; [reflexivity|].
  rewrite IH.
  destruct c as [|now|now]; simpl; try reflexivity.
  unfold can_execute.
  destruct (state cb); simpl; try reflexivity.
  destruct (last_failure_time cb); simpl; [| reflexivity].
  destruct (_ <? _); reflexivity.
Qed.

End BreakerFacts.

Lemma apply_call_tripped st cb c :
  tripped_shape st cb -> tripped_shape st (apply_call st cb c).
Proof.
  unfold tripped_shape. intros Hinv.
  destruct c as [|now|now]; simpl.
  - intros H. congruence.
  - destruct (Z.leb_spec (circuit_breaker_threshold st) (failure_count cb + 1)).
    + intros _. split; [assumption | eexists; reflexivity].
    + intros Hst. destruct (Hinv Hst) as [Hc _]. lia.
  - unfold can_execute. destruct (state cb) eqn:Hs; simpl.
    + rewrite Hs. congruence.
    + destruct (Hinv ltac:(discriminate)) as [Hc Hl].
      destruct (last_failure_time cb) as [t|] eqn:Ht; simpl;
        [destruct (_ <? _); simpl|]; intros _; rewrite ?Ht; split; auto.
    + rewrite Hs. intros _. apply Hinv. discriminate.
Qed.

Lemma run_calls_tripped st cs :
  tripped_shape st (run_calls st cs new_breaker).
Proof.
  unfold run_calls.
  assert (H : tripped_shape st new_breaker) by (intros Hn; simpl in Hn; congruence).
  revert H. generalize new_breaker.
  induction cs as [|c cs IH]; intros cb H; simpl; [exact H|].
  apply IH, apply_call_tripped, H.
Qed.

Lemma apply_call_closed st cb c :
  0 < circuit_breaker_threshold st ->
  closed_shape st cb -> closed_shape st (apply_call st cb c).
Proof.
  unfold closed_shape. intros Hpos Hinv.
  destruct c as [|now|now]; simpl.
  - intros _. exact Hpos.
  - destruct (Z.leb_spec (circuit_breaker_threshold st) (failure_count cb + 1));
      [discriminate | intros _; assumption].
  - unfold can_execute. destruct (state cb) eqn:Hs; simpl.
    + rewrite Hs. exact Hinv.
    + destruct (last_failure_time cb); simpl;
        [destruct (_ <? _); simpl|]; rewrite ?Hs; discriminate.
    + rewrite Hs. discriminate.
Qed.

Lemma run_calls_closed st cs :
  0 < circuit_breaker_threshold st ->
  closed_shape st (run_calls st cs new_breaker).
Proof.
  intros Hpos. unfold run_calls.
  assert (H : closed_shape st new_breaker) by (intros _; exact Hpos).
  revert H. generalize new_breaker.
  induction cs as [|c cs IH]; intros cb H; simpl; [exact H|].
  apply IH, apply_call_closed; assumption.
Qed.

Lemma run_calls_probe st cs cb probed :
  tripped_shape st cb -> probe_tracked cb probed ->
  probe_tracked (run_calls st cs cb)
    (probed_since_failure st cs (last_failure_time cb) probed).
Proof.
  unfold run_calls. revert cb probed.
  induction cs as [|c cs IH]; intros cb probed Htr Hp; [exact Hp|].
  pose proof (apply_call_tripped st cb c Htr) as Htr1.
  destruct Hp as [Hhalf Hopen].
  destruct c as [|now|now]; cbn [fold_left probed_since_failure].
  - apply (IH (apply_call st cb RecordSuccess) probed Htr1).
    split; simpl; discriminate.
  - apply (IH (apply_call st cb (RecordFailure now)) false Htr1).
    split; [| reflexivity]. simpl.
    destruct (Z.leb_spec (circuit_breaker_threshold st) (failure_count cb + 1));
      [discriminate|].
    intros Hs. destruct (Htr ltac:(congruence)) as [Hc _]. lia.
  - assert (Hlast : last_failure_time (apply_call st cb (CanExecute now))
                    = last_failure_time cb).
    { simpl. unfold can_execute. destruct (state cb); try reflexivity.
      destruct (last_failure_time cb) eqn:Ht; [destruct (_ <? _)|]; simpl;
        rewrite ?Ht; reflexivity. }
    rewrite <- Hlast at 1.
    apply (IH (apply_call st cb (CanExecute now)) _ Htr1).
    simpl. unfold can_execute, probe_tracked. destruct (state cb) eqn:Hs.
    + simpl. rewrite Hs. split; discriminate.
    + rewrite (Hopen eq_refl). cbn [orb].
      destruct (last_failure_time cb) as [t|]; simpl.
      * destruct (_ <? _); simpl; [split; [reflexivity | discriminate]|].
        rewrite Hs. split; [discriminate | reflexivity].
      * rewrite Hs. split; [discriminate | reflexivity].
    + rewrite (Hhalf eq_refl). simpl. rewrite Hs.
      split; [reflexivity | discriminate].
Qed.




(** ** RateLimiter *)

Lemma same_answers_eq rs bs : same_answers rs bs = true -> rs = map Ok bs.
Proof.
  revert bs. induction rs as [|r rs IH]; intros [|b bs]; simpl;
    try discriminate; [reflexivity | |]; destruct r as [r|e];
    try discriminate.
  intros H. apply andb_true_iff in H as [Hr Hrest].
  apply Bool.eqb_prop in Hr. subst r. f_equal. apply IH, Hrest.
Qed.

(** [float_limit] is where the nearest float stops being finite. *)
Example nearest_float_at_the_limit :
  PrimFloat.is_infinity (nearest_float float_limit) = true
  /\ PrimFloat.is_infinity (nearest_float (float_limit - 1)) = false
  /\ PrimFloat.is_infinity (nearest_float (- float_limit)) = true
  /\ PrimFloat.is_infinity (nearest_float (1 - float_limit)) = false.
Proof. vm_compute. auto. Qed.

(** Only the time elapsed since [last_update] matters to [acquire]. *)
Lemma acquire_moved now s rl :
  acquire (now + s) (moved s rl)
  = (fst (acquire now rl), moved s (snd (acquire now rl))).
Proof.
  unfold acquire, refilled, moved; cbn [rate window tokens last_update].
  replace (now + s - (last_update rl + s)) with (now - last_update rl) by lia.
  destruct (int_true_div _ _) as [per_second|e]; [| reflexivity].
  destruct (to_float _) as [held|e]; [| reflexivity].
  destruct (at_least_one _); reflexivity.
Qed.

Lemma acquire_all_moved times s rl :
  fst (acquire_all (map (fun t => t + s) times) (moved s rl))
  = fst (acquire_all times rl).
Proof.
  revert rl. induction times as [|now times IH]; intros rl; [reflexivity|].
  cbn [map acquire_all]. rewrite acquire_moved.
  destruct (acquire now rl) as [r rl1]; cbn [fst snd].
  specialize (IH rl1).
  destruct (acquire_all (map _ times) (moved s rl1)) as [rs rl2].
  destruct (acquire_all times rl1) as [rs' rl2']. simpl in *. congruence.
Qed.

Lemma scenario_moved times t0 :
  fst (acquire_all (map (fun t => t + t0) times) (new_limiter 2 60 t0))
  = fst (acquire_all times (new_limiter 2 60 0)).
Proof. rewrite <- (acquire_all_moved times t0 (new_limiter 2 60 0)). reflexivity. Qed.

Lemma burst_then_wait_moved t0 wait :
  burst_then_wait t0 wait = burst_then_wait 0 wait.
Proof.
  unfold burst_then_wait.
  rewrite <- (scenario_moved [0; 0; 0; 0 + wait; 0 + wait; 0 + wait] t0).
  cbn [map]. rewrite !Z.add_0_l, (Z.add_comm wait t0). reflexivity.
Qed.

Lemma waits_in from step n wait k :
  (k < n)%nat -> wait = from + Z.of_nat k * step -> In wait (waits from step n).
Proof.
  intros Hk ->. unfold waits.
  apply (in_map (fun k => from + Z.of_nat k * step)), in_seq. lia.
Qed.

Lemma answers_checked ws t0 wait :
  forallb answers_as_expected ws = true -> In wait ws ->
  burst_then_wait t0 wait = map Ok (burst_then_wait_answers wait).
Proof.
  intros Hall Hin. rewrite burst_then_wait_moved. apply same_answers_eq.
  rewrite forallb_forall in Hall. apply Hall, Hin.
Qed.

Lemma whole_seconds_checked :
  forallb answers_as_expected (waits 0 1000000 601) = true.
Proof. vm_compute. reflexivity. Qed.

Lemma around_30s_checked :
  forallb answers_as_expected (waits (seconds 30 - 500) 1 1001) = true.
Proof. vm_compute. reflexivity. Qed.

Lemma around_60s_checked :
  forallb answers_as_expected (waits (seconds 60 - 500) 1 1001) = true.
Proof. vm_compute. reflexivity. Qed.



(** ** The monad and what computations leave untouched *)

Lemma preserves_ret {A X} (f : World -> X) (a : A) : preserves f (ret a).
Proof. intros w. reflexivity. Qed.

Lemma preserves_raise {A X} (f : World -> X) (e : pyexn) :
  preserves f (@raise A e).
Proof. intros w. reflexivity. Qed.

Lemma preserves_lift {A X} (f : World -> X) (r : result A) :
  preserves f (lift r).
Proof. intros w. reflexivity. Qed.

Lemma preserves_bind {A B X} (f : World -> X) (m : M A) (k : A -> M B) :
  preserves f m -> (forall a, preserves f (k a)) -> preserves f (bind m k).
Proof.
  intros Hm Hk w. unfold bind. specialize (Hm w).
  destruct (m w) as [[a|e] w1]; simpl in *.
  - rewrite Hk. exact Hm.
  - exact Hm.
Qed.

Lemma preserves_try {A X} (f : World -> X) (m : M A) :
  preserves f m -> preserves f (try_ m).
Proof.
  intros Hm w. unfold try_. specialize (Hm w).
  destruct (m w) as [r w1]. exact Hm.
Qed.

Lemma preserves_if {A X} (f : World -> X) (b : bool) (m1 m2 : M A) :
  preserves f m1 -> preserves f m2 -> preserves f (if b then m1 else m2).
Proof. destruct b; auto. Qed.

Create HintDb quiet.
#[local] Hint Resolve preserves_ret preserves_raise preserves_lift
  preserves_bind preserves_try preserves_if : quiet.

(** ** IntegrationHttpClient *)

Lemma utcnow_network env : preserves network_view (utcnow env).
Proof. intros w. reflexivity. Qed.

Lemma get_circuit_breaker_network id :
  preserves network_view (_get_circuit_breaker id).
Proof.
  intros w. unfold _get_circuit_breaker.
  destruct (circuit_breakers w !! id); reflexivity.
Qed.

Lemma get_rate_limiter_network env id r :
  preserves network_view (_get_rate_limiter env id r).
Proof.
  intros w. unfold _get_rate_limiter.
  destruct (rate_limiters w !! id); reflexivity.
Qed.

Lemma breaker_can_execute_network env cb :
  preserves network_view (breaker_can_execute env cb).
Proof.
  intros w. unfold breaker_can_execute.
  destruct (circuit_breakers w !! cb) as [b|]; [| reflexivity].
  destruct (can_execute_reads_clock b); unfold bind, utcnow; simpl;
    destruct (can_execute _ _ b); reflexivity.
Qed.

Lemma limiter_acquire_network env rl :
  preserves network_view (limiter_acquire env rl).
Proof.
  intros w. unfold limiter_acquire.
  destruct (rate_limiters w !! rl) as [l|]; [| reflexivity].
  unfold bind, utcnow; simpl. destruct (acquire _ l); reflexivity.
Qed.

#[local] Hint Resolve utcnow_network get_circuit_breaker_network
  get_rate_limiter_network breaker_can_execute_network
  limiter_acquire_network : quiet.

(** The guards talk to no one. *)
Lemma request_guards_network env id :
  preserves network_view (request_guards env id).
Proof.
  unfold request_guards.
  repeat (first [ apply preserves_bind; [| intros ?]
                | apply preserves_if
                | solve [auto with quiet] ]).
Qed.

Lemma breaker_record_failure_network env cb :
  preserves network_view (breaker_record_failure env cb).
Proof. intros w. reflexivity. Qed.

Section PersistentFailure.
Variable env : Env.
Variable cb : string.
Variable req : Request.
Variable err : nat -> pyexn.
Hypothesis every_attempt_fails :
  forall k, attempt_error (transport env k req) = Some (err k).

Lemma attempt_once_fails w :
  fst (attempt_once env cb req w) = Raise (err (calls w))
  /\ calls (snd (attempt_once env cb req w)) = S (calls w)
  /\ trace (snd (attempt_once env cb req w)) = trace w ++ [Sent req].
Proof.
  pose proof (every_attempt_fails (calls w)) as H.
  unfold attempt_once, bind, send.
  destruct (transport env (calls w) req) as [e|resp]; simpl in H.
  - inversion H; subst. simpl. auto.
  - unfold breaker_record_success; simpl.
    destruct (content resp); try discriminate.
    inversion H; subst. simpl. auto.
Qed.

Lemma attempt_loop_step max_retries attempt rest last w :
  exists w3,
    attempt_loop env cb req max_retries (attempt :: rest) last w
    = attempt_loop env cb req max_retries rest (Some (err (calls w))) w3
    /\ calls w3 = S (calls w)
    /\ trace w3
       = trace w ++ Sent req ::
           (if attempt <? max_retries
            then [Slept (NInt (retry_delay (settings env) attempt))]
            else []).
Proof.
  destruct (attempt_once_fails w) as (Hr & Hc & Ht).
  cbn [attempt_loop]. unfold bind, try_.
  destruct (attempt_once env cb req w) as [r w1]. simpl in Hr, Hc, Ht.
  subst r.
  unfold breaker_record_failure, bind, utcnow; simpl.
  destruct (attempt <? max_retries); simpl.
  - eexists. split; [reflexivity|]. simpl.
    rewrite Hc, Ht, <- app_assoc. auto.
  - eexists. split; [reflexivity|]. simpl. auto.
Qed.

Lemma attempt_loop_fails max_retries attempts :
  forall last w,
    let out := attempt_loop env cb req max_retries attempts last w in
    fst out = fst (@raise_last (gmap string value)
                     (match attempts with
                      | [] => last
                      | _ => Some (err (calls w + length attempts - 1)%nat)
                      end) w)
    /\ calls (snd out) = (calls w + length attempts)%nat
    /\ trace (snd out)
       = trace w ++ failed_attempts_trace (settings env) req max_retries attempts.
Proof.
  induction attempts as [|attempt rest IH]; intros last w out.
  - subst out. simpl. unfold raise_last.
    rewrite Nat.add_0_r, app_nil_r.
    destruct last; simpl; auto.
  - subst out.
    destruct (attempt_loop_step max_retries attempt rest last w)
      as (w3 & Heq & Hc & Ht).
    rewrite Heq.
    specialize (IH (Some (err (calls w))) w3). cbv zeta in IH.
    destruct IH as (IHr & IHc & IHt).
    rewrite IHr, IHc, IHt, Hc, Ht.
    split; [| split].
    + unfold raise_last, raise. simpl.
      destruct rest as [|a rest']; simpl; do 2 f_equal; lia.
    + simpl. lia.
    + unfold failed_attempts_trace. simpl. rewrite <- !app_assoc. reflexivity.
Qed.
End PersistentFailure.

Lemma py_range_succ n : 0 <= n -> py_range (n + 1) = py_range n ++ [n].
Proof.
  intros Hn. unfold py_range.
  replace (Z.to_nat (n + 1)) with (S (Z.to_nat n)) by lia.
  rewrite seq_S, fmap_app. simpl. rewrite Z2Nat.id by lia. reflexivity.
Qed.

Lemma py_range_lt n : Forall (fun k => k < n) (py_range n).
Proof.
  unfold py_range. apply Forall_fmap, Forall_forall.
  intros k Hk. apply list_elem_of_In, in_seq in Hk. simpl. lia.
Qed.

Lemma py_range_length n : length (py_range n) = Z.to_nat n.
Proof. unfold py_range. rewrite length_fmap, length_seq. reflexivity. Qed.

Lemma failed_attempts_trace_retried st req n attempts :
  Forall (fun k => k < n) attempts ->
  failed_attempts_trace st req n attempts
  = flat_map (fun k => [Sent req; Slept (NInt (retry_delay st k))]) attempts.
Proof.
  induction 1 as [|k l Hk _ IH]; [reflexivity|].
  unfold failed_attempts_trace in *. simpl. rewrite IH.
  apply Z.ltb_lt in Hk. rewrite Hk. reflexivity.
Qed.

Lemma failed_attempts_trace_range st req n :
  0 <= n ->
  failed_attempts_trace st req n (py_range (n + 1))
  = flat_map (fun k => [Sent req; Slept (NInt (retry_delay st k))]) (py_range n)
    ++ [Sent req].
Proof.
  intros Hn. rewrite py_range_succ by assumption.
  unfold failed_attempts_trace at 1. rewrite flat_map_app.
  fold (failed_attempts_trace st req n (py_range n)).
  rewrite failed_attempts_trace_retried by apply py_range_lt.
  simpl. rewrite Z.ltb_irrefl. reflexivity.
Qed.

(** A call admitted by the guards, to a target on which every attempt
    fails. *)
Lemma request_persistent_failure env id req retries err w cb w1 :
  (forall k, attempt_error (transport env k req) = Some (err k)) ->
  request_guards env id w = (Ok cb, w1) ->
  0 <= resolve_max_retries env retries ->
  let n := resolve_max_retries env retries in
  let out := request env id req retries w in
  fst out = Raise (err (calls w + Z.to_nat n)%nat)
  /\ calls (snd out) = (calls w + Z.to_nat (n + 1))%nat
  /\ trace (snd out)
     = trace w
       ++ flat_map (fun k => [Sent req;
                              Slept (NInt (retry_delay (settings env) k))])
                   (py_range n)
       ++ [Sent req].
Proof.
  intros Hfail Hguards Hn n out.
  pose proof (request_guards_network env id w) as Hq.
  rewrite Hguards in Hq. unfold network_view in Hq. simpl in Hq.
  inversion Hq as [[Hc Ht]].
  subst out. unfold request, bind. rewrite Hguards. fold n.
  destruct (attempt_loop_fails env cb req err Hfail n (py_range (n + 1)) None w1)
    as (Hr & Hcalls & Htrace).
  rewrite Hr, Hcalls, Htrace, Hc, Ht.
  rewrite py_range_length, failed_attempts_trace_range by exact Hn.
  split; [| split; reflexivity].
  rewrite py_range_succ by exact Hn.
  destruct (py_range n ++ [n]) eqn:E.
  - destruct (py_range n); discriminate.
  - unfold raise_last, raise. simpl. do 2 f_equal. lia.
Qed.


Lemma failing_env_fails k :
  attempt_error (transport failing_env k sample_request) = Some connect_error.
Proof. reflexivity. Qed.

Lemma failing_env_admits :
  request_guards failing_env "crm" fresh_world
  = (Ok "crm", snd (request_guards failing_env "crm" fresh_world)).
Proof. vm_compute. reflexivity. Qed.







(** ** Workflow engine: the report is a function of the workflow *)

Lemma dispatch_pure step_type config context w :
  fst (dispatch step_type config context w) = dispatch_outcome step_type config.
Proof.
  unfold dispatch_outcome.
  destruct step_type; try reflexivity.
  unfold dispatch, _execute_delay, bind, lift.
  destruct config; simpl; try reflexivity.
  destruct (default (VInt 0) (d !! "seconds")); simpl; try reflexivity.
  - destruct (z <=? 0); [reflexivity|].
    destruct (float_of_int z); reflexivity.
  - destruct (PrimFloat.is_nan f); reflexivity.
Qed.

Lemma entry_failed_of r :
  entry_failed (entry_of r) = bool_decide (status r = FAILED).
Proof. destruct r as [? [] ? ? ? ?]; reflexivity. Qed.

Lemma entry_completed_of r :
  entry_completed (entry_of r) = bool_decide (status r = COMPLETED).
Proof. destruct r as [? [] ? ? ? ?]; reflexivity. Qed.

Lemma execute_step_entry env step context w :
  rmap entry_of (fst (_execute_step env step context w)) = step_entry step.
Proof.
  unfold _execute_step, step_entry, bind, lift, rbind.
  destruct (py_get step "id" VNone) as [step_id|]; [| reflexivity].
  destruct (py_get step "type" VNone) as [type|]; [| reflexivity].
  destruct (StepType_of type) as [step_type|]; [| reflexivity].
  destruct (py_get step "config" (VDict ∅)) as [config|]; [| reflexivity].
  unfold utcnow at 1. cbn iota beta. unfold try_.
  match goal with |- context [dispatch step_type config context ?w1] =>
    pose proof (dispatch_pure step_type config context w1) as Hd;
    destruct (dispatch step_type config context w1) as [r w2]
  end.
  simpl in Hd. subst r. simpl.
  destruct (dispatch_outcome step_type config); reflexivity.
Qed.

Lemma loop_body_entry env workflow_config step context w :
  rmap (fun bc => (fst bc, context_view (snd bc)))
       (fst (loop_body env workflow_config step context w))
  = rbind (step_entry step) (fun en =>
      rmap (fun stop => (stop, (execution_id context,
                                (entry_of <$> step_results context) ++ [en])))
           (breaks_after workflow_config en)).
Proof.
  rewrite <- execute_step_entry with (env := env) (context := context) (w := w).
  unfold loop_body, bind.
  destruct (_execute_step env step context w) as [[r|e] w1]; [| reflexivity].
  cbn [fst rmap rbind]. unfold breaks_after. rewrite entry_failed_of.
  destruct (bool_decide (status r = FAILED)).
  - unfold stop_on_error, lift.
    destruct (py_get _ "stop_on_error" (VBool true)); [| reflexivity].
    simpl. unfold context_view. simpl. rewrite fmap_app. reflexivity.
  - simpl. unfold context_view. simpl. rewrite fmap_app. reflexivity.
Qed.

Lemma run_steps_entries env workflow_config steps :
  forall context w,
    rmap context_view (fst (run_steps env workflow_config steps context w))
    = rmap (fun es => (execution_id context,
                       (entry_of <$> step_results context) ++ es))
           (run_entries workflow_config steps).
Proof.
  induction steps as [|step rest IH]; intros context w.
  - simpl. unfold context_view. rewrite app_nil_r. reflexivity.
  - cbn [run_steps run_entries]. unfold bind.
    pose proof (loop_body_entry env workflow_config step context w) as H.
    destruct (loop_body env workflow_config step context w) as [[[brk c1]|e] w1];
      cbn [fst snd rmap] in H.
    + destruct (step_entry step) as [en|]; [| discriminate].
      cbn [rbind] in *.
      destruct (breaks_after workflow_config en) as [stop|]; [| discriminate].
      cbn [rmap rbind] in *. inversion H as [[Hb Hid Hes]]. subst stop.
      cbn [fst snd]. destruct brk.
      * simpl. unfold context_view. rewrite Hid, Hes. reflexivity.
      * rewrite IH, Hid, Hes.
        destruct (run_entries workflow_config rest); simpl; [| reflexivity].
        rewrite <- app_assoc. reflexivity.
    + destruct (step_entry step) as [en|]; cbn [rbind] in *;
        [| simpl; congruence].
      destruct (breaks_after workflow_config en); cbn [rmap rbind] in *;
        [discriminate | simpl; congruence].
Qed.

Lemma run_steps_cancelled_entries env workflow_config steps :
  forall countdown context w,
    rmap context_view
         (fst (run_steps_cancelled env workflow_config countdown steps context w))
    = rmap (fun es => (execution_id context,
                       (entry_of <$> step_results context) ++ es))
           (run_entries workflow_config steps).
Proof.
  induction steps as [|step rest IH]; intros countdown context w.
  - simpl. unfold context_view. rewrite app_nil_r. reflexivity.
  - cbn [run_steps_cancelled run_entries]. unfold bind at 1.
    assert (Hpre : exists w0,
               (match countdown with
                | Some O => let* _ := cancel_execution env (execution_id context)
                            in ret tt
                | _ => ret tt
                end) w = (Ok tt, w0)).
    { destruct countdown as [[|k]|]; eexists; reflexivity. }
    destruct Hpre as (w0 & ->). unfold bind.
    pose proof (loop_body_entry env workflow_config step context w0) as H.
    destruct (loop_body env workflow_config step context w0) as [[[brk c1]|e] w1];
      cbn [fst snd rmap] in H.
    + destruct (step_entry step) as [en|]; [| discriminate].
      cbn [rbind] in *.
      destruct (breaks_after workflow_config en) as [stop|]; [| discriminate].
      cbn [rmap rbind] in *. inversion H as [[Hb Hid Hes]]. subst stop.
      cbn [fst snd]. destruct brk.
      * simpl. unfold context_view. rewrite Hid, Hes. reflexivity.
      * rewrite IH, Hid, Hes.
        destruct (run_entries workflow_config rest); simpl; [| reflexivity].
        rewrite <- app_assoc. reflexivity.
    + destruct (step_entry step) as [en|]; cbn [rbind] in *;
        [| simpl; congruence].
      destruct (breaks_after workflow_config en); cbn [rmap rbind] in *;
        [discriminate | simpl; congruence].
Qed.

Lemma determine_final_status_entries context :
  _determine_final_status context
  = final_status_of (entry_of <$> step_results context).
Proof.
  unfold _determine_final_status, final_status_of.
  assert (He : forall l, existsb (fun r => bool_decide (status r = FAILED)) l
                         = existsb entry_failed (entry_of <$> l)).
  { induction l as [|r l IH]; [reflexivity|].
    simpl. rewrite IH, entry_failed_of. reflexivity. }
  assert (Ha : forall l, forallb (fun r => bool_decide (status r = COMPLETED)) l
                         = forallb entry_completed (entry_of <$> l)).
  { induction l as [|r l IH]; [reflexivity|].
    simpl. rewrite IH, entry_completed_of. reflexivity. }
  rewrite He, Ha. reflexivity.
Qed.

Lemma report_of_view context id es :
  context_view context = (id, es) -> report_of context = report_with id es.
Proof.
  unfold context_view, report_of, report_with. intros H.
  inversion H; subst. rewrite determine_final_status_entries. reflexivity.
Qed.

Lemma execute_workflow_pure env workflow_id workflow_config input w :
  fst (execute_workflow env workflow_id workflow_config input w)
  = rmap (report_with (utcnow_at env (reads w))) (report_entries workflow_config).
Proof.
  unfold execute_workflow, new_context, report_entries, bind, utcnow, lift.
  cbn iota beta. unfold ret at 1. cbn iota beta.
  destruct (steps_of workflow_config) as [steps|]; [| reflexivity].
  cbn [rbind].
  match goal with |- context [run_steps env workflow_config steps ?c ?w1] =>
    pose proof (run_steps_entries env workflow_config steps c w1) as H;
    destruct (run_steps env workflow_config steps c w1) as [[c1|e] w2]
  end; cbn [fst rmap] in *.
  - destruct (run_entries workflow_config steps) as [es|]; [| discriminate].
    simpl in H. simpl.
    f_equal. apply report_of_view. congruence.
  - destruct (run_entries workflow_config steps); [discriminate|].
    simpl in *. congruence.
Qed.

Lemma execute_workflow_cancelled_pure env k workflow_id workflow_config input w :
  fst (execute_workflow_cancelled env k workflow_id workflow_config input w)
  = rmap (report_with (utcnow_at env (reads w))) (report_entries workflow_config).
Proof.
  unfold execute_workflow_cancelled, new_context, report_entries, bind, utcnow, lift.
  cbn iota beta. unfold ret at 1. cbn iota beta.
  destruct (steps_of workflow_config) as [steps|]; [| reflexivity].
  cbn [rbind].
  match goal with
  |- context [run_steps_cancelled env workflow_config ?cd steps ?c ?w1] =>
    pose proof (run_steps_cancelled_entries env workflow_config steps cd c w1) as H;
    destruct (run_steps_cancelled env workflow_config cd steps c w1) as [[c1|e] w2]
  end; cbn [fst rmap] in *.
  - destruct (run_entries workflow_config steps) as [es|]; [| discriminate].
    simpl in H. simpl.
    f_equal. apply report_of_view. congruence.
  - destruct (run_entries workflow_config steps); [discriminate|].
    simpl in *. congruence.
Qed.


(** ** Workflow engine: the engine and the resilient client *)

Lemma utcnow_client env : preserves client_view (utcnow env).
Proof. intros w. reflexivity. Qed.

Lemma sleep_client d : preserves client_view (sleep d).
Proof.
  intros w. unfold client_view, sleep. simpl.
  rewrite omap_app. simpl. rewrite app_nil_r. reflexivity.
Qed.

Lemma asyncio_sleep_client v : preserves client_view (asyncio_sleep v).
Proof.
  destruct v; simpl; auto using sleep_client with quiet.
  destruct (z <=? 0); [apply sleep_client|].
  destruct (float_of_int z); auto using sleep_client with quiet.
Qed.

Lemma dispatch_client step_type config context :
  preserves client_view (dispatch step_type config context).
Proof.
  destruct step_type; simpl; try (intros w; reflexivity).
  unfold _execute_delay.
  apply preserves_bind; [auto with quiet | intros d].
  apply preserves_bind; [apply asyncio_sleep_client | intros _].
  auto with quiet.
Qed.

Lemma execute_step_client env step context :
  preserves client_view (_execute_step env step context).
Proof.
  unfold _execute_step.
  repeat (apply preserves_bind; [| intros ?]);
    auto using utcnow_client, dispatch_client with quiet.
Qed.

Lemma loop_body_client env workflow_config step context :
  preserves client_view (loop_body env workflow_config step context).
Proof.
  unfold loop_body.
  apply preserves_bind; [apply execute_step_client | intros r].
  apply preserves_if; auto with quiet.
Qed.

Lemma run_steps_client env workflow_config steps :
  forall context, preserves client_view (run_steps env workflow_config steps context).
Proof.
  induction steps as [|step rest IH]; intros context; simpl; [auto with quiet|].
  apply preserves_bind; [apply loop_body_client | intros bc].
  apply preserves_if; auto with quiet.
Qed.

Lemma execute_workflow_client env workflow_id workflow_config input :
  preserves client_view (execute_workflow env workflow_id workflow_config input).
Proof.
  unfold execute_workflow, new_context.
  repeat (apply preserves_bind; [| intros ?]);
    auto using utcnow_client, run_steps_client with quiet.
Qed.

(** ** Workflow engine: facts about the entries of a run *)

Lemma step_entry_terminal step en :
  step_entry step = Ok en -> completed_or_failed en.
Proof.
  unfold step_entry, rbind, completed_or_failed.
  destruct (py_get step "id" VNone); [| discriminate].
  destruct (py_get step "type" VNone); [| discriminate].
  destruct (StepType_of _); [| discriminate].
  destruct (py_get step "config" _); [| discriminate].
  intros H. inversion H; subst.
  destruct (dispatch_outcome _ _); simpl; auto.
Qed.

Lemma run_entries_terminal workflow_config steps :
  forall es, run_entries workflow_config steps = Ok es ->
             Forall completed_or_failed es.
Proof.
  induction steps as [|step rest IH]; intros es H; simpl in H.
  - inversion H. constructor.
  - destruct (step_entry step) as [en|] eqn:Hen; [| discriminate].
    cbn [rbind] in H.
    destruct (breaks_after workflow_config en) as [[]|]; cbn [rbind] in H;
      [| | discriminate].
    + inversion H; subst.
      constructor; [eapply step_entry_terminal; exact Hen | constructor].
    + destruct (run_entries workflow_config rest) as [es'|]; [| discriminate].
      inversion H; subst.
      constructor; [eapply step_entry_terminal; exact Hen | apply IH; reflexivity].
Qed.

Lemma terminal_not_partial es :
  Forall completed_or_failed es -> final_status_of es <> "partial".
Proof.
  unfold final_status_of. intros H.
  destruct (existsb entry_failed es) eqn:Hf; [discriminate|].
  assert (Ha : forallb entry_completed es = true).
  { induction H as [|en es [Hc|Hc] _ IH]; [reflexivity | |];
      simpl in *; apply orb_false_iff in Hf as [Hf1 Hf2].
    - unfold entry_completed. rewrite Hc. simpl. auto.
    - unfold entry_failed in Hf1. rewrite Hc in Hf1. discriminate. }
  rewrite Ha. discriminate.
Qed.

(** A run that leaves steps untouched stopped on a failed entry. *)
Lemma run_entries_short workflow_config steps :
  forall es, run_entries workflow_config steps = Ok es ->
             (length es <= length steps)%nat
             /\ ((length es < length steps)%nat ->
                 existsb entry_failed es = true
                 /\ exists en, last es = Some en /\ entry_failed en = true).
Proof.
  induction steps as [|step rest IH]; intros es H; simpl in H.
  - inversion H. simpl. split; [lia | intros; lia].
  - destruct (step_entry step) as [en|] eqn:Hen; [| discriminate].
    cbn [rbind] in H. unfold breaks_after in H.
    destruct (entry_failed en) eqn:Hf.
    + destruct (stop_on_error workflow_config) as [[]|]; cbn [rbind] in H;
        [| | discriminate].
      * inversion H; subst. simpl. rewrite Hf. split; [lia|].
        intros _. split; [reflexivity|]. exists en. auto.
      * destruct (run_entries workflow_config rest) as [es'|]; [| discriminate].
        inversion H; subst. simpl. rewrite Hf.
        destruct (IH es' eq_refl) as [Hle Hlt]. split; [lia|].
        intros Hlen. split; [reflexivity|].
        destruct Hlt as (_ & en' & Hlast & Hf'); [lia|].
        exists en'. split; [| exact Hf'].
        destruct es'; [discriminate | exact Hlast].
    + cbn [rbind] in H.
      destruct (run_entries workflow_config rest) as [es'|]; [| discriminate].
      inversion H; subst. simpl. rewrite Hf.
      destruct (IH es' eq_refl) as [Hle Hlt]. split; [lia|].
      intros Hlen. destruct Hlt as (He & en' & Hlast & Hf'); [lia|].
      split; [exact He|]. exists en'. split; [| exact Hf'].
      destruct es'; [discriminate | exact Hlast].
Qed.

(** With the stopping policy, the entries end at the first failure. *)
Lemma run_entries_stops workflow_config before step after es_before en :
  stop_on_error workflow_config = Ok true ->
  Forall2 (fun s e => step_entry s = Ok e /\ entry_failed e = false)
          before es_before ->
  step_entry step = Ok en -> entry_failed en = true ->
  run_entries workflow_config (before ++ step :: after) = Ok (es_before ++ [en]).
Proof.
  intros Hstop Hbefore Hen Hf.
  induction Hbefore as [|s e before es_before [Hs He] _ IH]; simpl.
  - rewrite Hen. cbn [rbind]. unfold breaks_after. rewrite Hf, Hstop.
    reflexivity.
  - rewrite Hs. cbn [rbind]. unfold breaks_after. rewrite He. cbn [rbind].
    rewrite IH. reflexivity.
Qed.

(** Without it, or without failures, every step leaves its entry. *)
Lemma run_entries_all workflow_config steps es :
  Forall2 (fun s e => step_entry s = Ok e
                      /\ (entry_failed e = true ->
                          stop_on_error workflow_config = Ok false))
          steps es ->
  run_entries workflow_config steps = Ok es.
Proof.
  induction 1 as [|s e steps es [Hs He] _ IH]; simpl; [reflexivity|].
  rewrite Hs. cbn [rbind]. unfold breaks_after.
  destruct (entry_failed e).
  - rewrite He by reflexivity. cbn [rbind]. rewrite IH. reflexivity.
  - cbn [rbind]. rewrite IH. reflexivity.
Qed.


(** ** Workflow engine: the claims *)

Lemma unknown_kind_entries :
  report_entries unknown_kind_workflow
  = Raise (PyExn "ValueError" "'webhook' is not a valid StepType" None).
Proof. vm_compute. reflexivity. Qed.

Lemma bad_delay_entries :
  report_entries bad_delay_workflow
  = Ok [{| entry_step_id := VStr "wait"; entry_status := "failed";
           entry_output := None;
           entry_error :=
             Some "'<=' not supported between instances of 'str' and 'int'" |}].
Proof. vm_compute. reflexivity. Qed.

(** C1, at the failing input. A step of an undeclared kind makes
    [execute_workflow] itself raise [ValueError]: [StepType(...)] is
    evaluated before the [try], so no [StepResult] is recorded and no
    report is returned; whereas an error raised by a handler (here a
    delay that is no number) is captured as a failed entry of a
    returned report. *)
Theorem unknown_step_kind_escapes_execute_workflow
  (env : Env) (workflow_id : string) (input : gmap string value) (w : World) :
  fst (execute_workflow env workflow_id unknown_kind_workflow input w)
  = Raise (PyExn "ValueError" "'webhook' is not a valid StepType" None)
  /\ exists rep,
       fst (execute_workflow env workflow_id bad_delay_workflow input w) = Ok rep
       /\ report_status rep = "failed"
       /\ entry_status <$> report_step_results rep = ["failed"]
       /\ entry_error <$> report_step_results rep
          = [Some "'<=' not supported between instances of 'str' and 'int'"].
Proof.
  rewrite !execute_workflow_pure, unknown_kind_entries, bad_delay_entries.
  split; [reflexivity|].
  eexists. split; [reflexivity|]. simpl. auto.
Qed.

Lemma execute_step_of_kind env (kind : StepType) step context w :
  let out := _execute_step env
               (VDict (<["type" := VStr (StepType_value kind)]> step)) context w in
  client_view (snd out) = client_view w
  /\ exists r, fst out = Ok r
               /\ (forall o, dispatch_outcome kind
                               (default (VDict ∅)
                                  (<["type" := VStr (StepType_value kind)]> step
                                     !! "config")) = Ok o ->
                   status r = COMPLETED /\ output r = Some o /\ error r = None).
Proof.
  intros out. split; [apply execute_step_client|].
  subst out.
  set (m := <["type" := VStr (StepType_value kind)]> step).
  assert (Ht : m !! "type" = Some (VStr (StepType_value kind)))
    by apply lookup_insert_eq.
  clearbody m.
  unfold _execute_step, bind, lift, py_get. rewrite Ht.
  cbn [from_option]. unfold id at 1.
  assert (Hk : StepType_of (VStr (StepType_value kind)) = Ok kind)
    by (destruct kind; reflexivity).
  rewrite Hk. unfold utcnow at 1. cbn iota beta. unfold try_.
  match goal with |- context [dispatch kind ?c context ?w1] =>
    pose proof (dispatch_pure kind c context w1) as Hd;
    destruct (dispatch kind c context w1) as [r w2]
  end.
  simpl in Hd. subst r. simpl.
  eexists. split; [reflexivity|].
  intros o Ho. rewrite Ho. simpl. auto.
Qed.

(** C3, as the code has it. [_execute_http_request] is a placeholder:
    whatever the step's configuration, it returns
    [{"response": "placeholder"}] and leaves the world as it was; a
    step of kind [http_request] completes with that output; and no
    run of the engine sends a request or touches a breaker or a
    limiter of the resilient client. *)
Theorem http_request_step_returns_placeholder
  (env : Env) (config : value) (context : ExecutionContext) (w : World)
  (step : gmap string value) (workflow_id : string)
  (workflow_config input : gmap string value) :
  _execute_http_request config context w = (Ok placeholder_output, w)
  /\ (let out := _execute_step env
                   (VDict (<["type" := VStr "http_request"]> step)) context w in
      client_view (snd out) = client_view w
      /\ exists r, fst out = Ok r /\ status r = COMPLETED
                   /\ output r = Some placeholder_output /\ error r = None)
  /\ client_view (snd (execute_workflow env workflow_id workflow_config input w))
     = client_view w.
Proof.
  split; [reflexivity|]. split; [| apply execute_workflow_client].
  destruct (execute_step_of_kind env HTTP_REQUEST step context w)
    as (Hc & r & Hr & Hout).
  split; [exact Hc|]. exists r. split; [exact Hr|].
  apply (Hout placeholder_output). reflexivity.
Qed.

Lemma http_workflow_entries :
  report_entries http_workflow
  = Ok [{| entry_step_id := VStr "fetch"; entry_status := "completed";
           entry_output := Some placeholder_output; entry_error := None |}].
Proof. vm_compute. reflexivity. Qed.

(** C3 as stated fails: against a healthy target the step's output is
    the placeholder, no summary of any response, and no request was
    sent at all. *)
Lemma http_request_step_contacts_no_one :
  let out := execute_workflow healthy_env "wf" http_workflow ∅ fresh_world in
  calls (snd out) = 0%nat
  /\ trace (snd out) = []
  /\ (exists rep, fst out = Ok rep
                  /\ entry_output <$> report_step_results rep
                     = [Some placeholder_output])
  /\ ~ (exists rep en resp body,
          fst out = Ok rep /\ report_step_results rep = [en]
          /\ entry_output en = Some (response_summary resp body)).
Proof.
  intros out. subst out.
  split; [vm_compute; reflexivity|].
  split; [vm_compute; reflexivity|].
  rewrite execute_workflow_pure, http_workflow_entries. simpl.
  split; [eexists; split; reflexivity|].
  intros (rep & en & resp & body & Hrep & Hen & Hout).
  inversion Hrep; subst rep. simpl in Hen. inversion Hen; subst en.
  cbn [entry_output] in Hout.
  assert (Hl : placeholder_output !! "status_code"
               = response_summary resp body !! "status_code")
    by congruence.
  unfold response_summary in Hl. rewrite lookup_insert_eq in Hl.
  vm_compute in Hl. discriminate Hl.
Qed.

(** C4, as the code has it. A step of kind [loop] or [parallel] falls
    to the [else] branch: it completes with the empty output and no
    error. *)
Theorem loop_and_parallel_steps_complete_empty
  (env : Env) (context : ExecutionContext) (w : World)
  (step : gmap string value) :
  (let out := _execute_step env
                (VDict (<["type" := VStr "loop"]> step)) context w in
   exists r, fst out = Ok r /\ status r = COMPLETED
             /\ output r = Some ∅ /\ error r = None)
  /\ (let out := _execute_step env
                   (VDict (<["type" := VStr "parallel"]> step)) context w in
      exists r, fst out = Ok r /\ status r = COMPLETED
                /\ output r = Some ∅ /\ error r = None).
Proof.
  split.
  - destruct (execute_step_of_kind env LOOP step context w)
      as (_ & r & Hr & Hout).
    exists r. split; [exact Hr|]. apply (Hout ∅). reflexivity.
  - destruct (execute_step_of_kind env PARALLEL step context w)
      as (_ & r & Hr & Hout).
    exists r. split; [exact Hr|]. apply (Hout ∅). reflexivity.
Qed.

Lemma loop_parallel_entries :
  report_entries loop_parallel_workflow
  = Ok [{| entry_step_id := VStr "each"; entry_status := "completed";
           entry_output := Some ∅; entry_error := None |};
        {| entry_step_id := VStr "fan"; entry_status := "completed";
           entry_output := Some ∅; entry_error := None |}].
Proof. vm_compute. reflexivity. Qed.

(** C4 as stated fails: a loop step and a parallel step both come out
    completed, with the empty output and no error message, and the run
    is reported completed. *)
Lemma loop_and_parallel_steps_are_silent :
  let out := execute_workflow healthy_env "wf" loop_parallel_workflow ∅
               fresh_world in
  exists rep,
    fst out = Ok rep
    /\ report_status rep = "completed"
    /\ length (report_step_results rep) = 2%nat
    /\ Forall (fun en => entry_status en = "completed"
                         /\ entry_output en = Some ∅
                         /\ entry_error en = None)
              (report_step_results rep)
    /\ ~ Exists (fun en => entry_status en = "failed")
                (report_step_results rep).
Proof.
  intros out. subst out.
  rewrite execute_workflow_pure, loop_parallel_entries. simpl.
  eexists. split; [reflexivity|]. simpl.
  split; [reflexivity|]. split; [reflexivity|].
  split; [repeat constructor|].
  intros H. apply Exists_cons in H as [H|H]; [discriminate|].
  apply Exists_cons in H as [H|H]; [discriminate|].
  inversion H.
Qed.


Lemma five_step_entries :
  rmap (fmap entry_status) (report_entries five_step_workflow)
  = Ok ["completed"; "completed"; "completed"; "completed"; "completed"].
Proof. vm_compute. reflexivity. Qed.

(** C5, as the code has it. The engine has no cancel operation; the
    only one in the repository is the endpoint [cancel_execution],
    which answers ["cancelled"] after reading the clock and changes
    nothing else. A run during which it is served after [k] steps
    returns what the undisturbed run returns, and every entry of a
    report is completed or failed: none is ever cancelled. *)
Theorem cancel_execution_does_not_reach_the_run
  (env : Env) (k : nat) (workflow_id : string)
  (workflow_config input : gmap string value) (w : World) :
  fst (execute_workflow_cancelled env k workflow_id workflow_config input w)
  = fst (execute_workflow env workflow_id workflow_config input w)
  /\ (forall rep,
        fst (execute_workflow_cancelled env k workflow_id workflow_config input w)
        = Ok rep ->
        Forall completed_or_failed (report_step_results rep)
        /\ ~ Exists (fun en => entry_status en = "cancelled")
                    (report_step_results rep))
  /\ (forall id : Z,
        exists body,
          fst (cancel_execution env id w) = Ok body
          /\ body !! "status" = Some (VStr "cancelled")
          /\ client_view (snd (cancel_execution env id w)) = client_view w
          /\ trace (snd (cancel_execution env id w)) = trace w).
Proof.
  rewrite execute_workflow_cancelled_pure, execute_workflow_pure.
  split; [reflexivity|]. split.
  - intros rep Hrep. unfold report_entries, rbind in Hrep.
    destruct (steps_of workflow_config) as [steps|]; [| discriminate].
    destruct (run_entries workflow_config steps) as [es|] eqn:Hes;
      [| discriminate].
    inversion Hrep; subst rep. simpl.
    pose proof (run_entries_terminal workflow_config steps es Hes) as Hterm.
    split; [exact Hterm|].
    intros Hex. apply Exists_exists in Hex as (en & Hin & Hc).
    rewrite Forall_forall in Hterm. destruct (Hterm en Hin) as [H|H];
      rewrite H in Hc; discriminate.
  - intros id. eexists. split; [reflexivity|].
    split; [| split; reflexivity]. reflexivity.
Qed.

Lemma cancel_execution_does_not_reach_the_run_witness :
  exists rep,
    fst (execute_workflow_cancelled healthy_env 2 "wf" five_step_workflow ∅
           fresh_world) = Ok rep
    /\ Forall completed_or_failed (report_step_results rep).
Proof.
  destruct (fst (execute_workflow_cancelled healthy_env 2 "wf"
                   five_step_workflow ∅ fresh_world)) as [rep|e] eqn:H.
  - exists rep. split; [reflexivity|].
    exact (proj1 (proj1 (proj2 (cancel_execution_does_not_reach_the_run
                                  healthy_env 2 "wf" five_step_workflow ∅
                                  fresh_world)) rep H)).
  - exfalso. vm_compute in H. discriminate H.
Defined.

(** C5 as stated fails: with the cancel request served after step 2
    of 5, the run still executes the three remaining steps and
    reports five completed entries, none cancelled. *)
Lemma cancelled_run_completes_all_steps :
  let out := execute_workflow_cancelled healthy_env 2 "wf" five_step_workflow ∅
               fresh_world in
  exists rep,
    fst out = Ok rep
    /\ report_status rep = "completed"
    /\ entry_status <$> report_step_results rep
       = ["completed"; "completed"; "completed"; "completed"; "completed"]
    /\ ~ (entry_status <$> drop 2 (report_step_results rep)
          = ["cancelled"; "cancelled"; "cancelled"]).
Proof.
  intros out. subst out.
  pose proof five_step_entries as H.
  rewrite execute_workflow_cancelled_pure.
  destruct (report_entries five_step_workflow) as [es|]; [| discriminate].
  simpl in H. inversion H as [Hes].
  eexists. split; [reflexivity|]. simpl.
  assert (Hst : final_status_of es = "completed").
  { unfold final_status_of.
    assert (Hf : existsb entry_failed es
                 = existsb (fun s => String.eqb s "failed") (entry_status <$> es))
      by (clear; induction es; simpl; [|rewrite IHes]; reflexivity).
    assert (Hc : forallb entry_completed es
                 = forallb (fun s => String.eqb s "completed") (entry_status <$> es))
      by (clear; induction es; simpl; [|rewrite IHes]; reflexivity).
    rewrite Hf, Hc, Hes. reflexivity. }
  split; [exact Hst|]. split; [reflexivity|].
  cbn [report_step_results report_with]. rewrite fmap_drop, Hes. simpl. discriminate.
Qed.

Lemma run_entries_total workflow_config steps b :
  stop_on_error workflow_config = Ok b ->
  Forall (fun s => exists en, step_entry s = Ok en) steps ->
  exists es, run_entries workflow_config steps = Ok es.
Proof.
  intros Hb. induction 1 as [|s steps [en Hen] _ [es IH]]; simpl.
  - eexists; reflexivity.
  - rewrite Hen. cbn [rbind]. unfold breaks_after. rewrite Hb.
    destruct (entry_failed en); [destruct b|]; cbn [rbind];
      try rewrite IH; eexists; reflexivity.
Qed.

(** C6, as the code has it. A workflow whose steps are mappings of
    declared kinds and whose policy can be read yields a report, and
    whenever [execute_workflow] returns a report its status follows
    the three-way rule on the recorded entries: failed if any is
    failed, else completed if all are completed, else partial. Every
    recorded entry is completed or failed, so the rule never reaches
    partial; and a run that stopped early, leaving trailing steps
    untouched, is reported failed. *)
Theorem final_status_rule_and_halted_runs
  (env : Env) (workflow_id : string)
  (workflow_config input : gmap string value) (w : World) :
  (forall steps b,
     steps_of workflow_config = Ok steps ->
     stop_on_error workflow_config = Ok b ->
     Forall (fun s => exists en, step_entry s = Ok en) steps ->
     exists rep,
       fst (execute_workflow env workflow_id workflow_config input w) = Ok rep)
  /\ (forall rep,
        fst (execute_workflow env workflow_id workflow_config input w) = Ok rep ->
        let es := report_step_results rep in
        report_status rep
        = (if existsb entry_failed es then "failed"
           else if forallb entry_completed es then "completed"
           else "partial")
        /\ Forall completed_or_failed es
        /\ report_status rep <> "partial"
        /\ (forall steps,
              steps_of workflow_config = Ok steps ->
              (length es < length steps)%nat ->
              report_status rep = "failed")).
Proof.
  rewrite execute_workflow_pure. unfold report_entries. split.
  - intros steps b Hsteps Hb Hall. rewrite Hsteps. cbn [rbind].
    destruct (run_entries_total workflow_config steps b Hb Hall) as [es Hes].
    rewrite Hes. eexists. reflexivity.
  - intros rep Hrep.
    destruct (steps_of workflow_config) as [steps|]; [| discriminate].
    cbn [rbind] in Hrep.
    destruct (run_entries workflow_config steps) as [es'|] eqn:Hes;
      [| discriminate].
    inversion Hrep; subst rep. cbn [report_step_results report_status report_with].
    pose proof (run_entries_terminal workflow_config steps es' Hes) as Hterm.
    split; [reflexivity|]. split; [exact Hterm|].
    split; [apply terminal_not_partial; exact Hterm|].
    intros steps' Hs Hlen. inversion Hs; subst steps'.
    destruct (run_entries_short workflow_config steps es' Hes) as [_ Hshort].
    destruct (Hshort Hlen) as [Hf _].
    unfold final_status_of. rewrite Hf. reflexivity.
Qed.

Lemma final_status_rule_and_halted_runs_witness :
  exists rep,
    fst (execute_workflow healthy_env "wf" five_step_workflow ∅ fresh_world)
    = Ok rep.
Proof.
  apply (proj1 (final_status_rule_and_halted_runs
                  healthy_env "wf" five_step_workflow ∅ fresh_world)
           (match steps_of five_step_workflow with Ok l => l | Raise _ => [] end)
           true).
  - vm_compute. reflexivity.
  - vm_compute. reflexivity.
  - repeat constructor; eexists; vm_compute; reflexivity.
Defined.

(** C6 as stated fails in its last part: a run halted after its first
    step, with the second step untouched, is reported failed, not
    partial. *)
Lemma halted_run_is_failed_not_partial :
  let out := execute_workflow healthy_env "wf" bad_delay_workflow ∅ fresh_world in
  exists rep steps,
    fst out = Ok rep
    /\ steps_of bad_delay_workflow = Ok steps
    /\ length steps = 2%nat
    /\ length (report_step_results rep) = 1%nat
    /\ report_status rep = "failed"
    /\ report_status rep <> "partial".
Proof.
  intros out. subst out.
  rewrite execute_workflow_pure, bad_delay_entries. simpl.
  eexists. eexists. split; [reflexivity|].
  split; [vm_compute; reflexivity|]. simpl.
  repeat split; try reflexivity. discriminate.
Qed.

(** On steps that are mappings of a declared kind the loop follows the
    policy. Without an [error_handling] policy, or with one that has
    no [stop_on_error], the policy is to stop. Under a stopping policy
    the report holds the entries of the steps up to and including the
    first failed one and nothing for the steps after it; under
    [stop_on_error = false] every step of the list leaves its entry,
    failed or not. *)
Theorem stop_on_error_halts_at_first_failure
  (env : Env) (workflow_id : string)
  (workflow_config input : gmap string value) (w : World) :
  (workflow_config !! "error_handling" = None ->
   stop_on_error workflow_config = Ok true)
  /\ (forall policy,
        workflow_config !! "error_handling" = Some (VDict policy) ->
        policy !! "stop_on_error" = None ->
        stop_on_error workflow_config = Ok true)
  /\ (forall before step after es_before en,
        stop_on_error workflow_config = Ok true ->
        steps_of workflow_config = Ok (before ++ step :: after) ->
        Forall2 (fun s e => step_entry s = Ok e /\ entry_failed e = false)
                before es_before ->
        step_entry step = Ok en -> entry_failed en = true ->
        exists rep,
          fst (execute_workflow env workflow_id workflow_config input w) = Ok rep
          /\ report_step_results rep = es_before ++ [en]
          /\ length (report_step_results rep) = S (length before))
  /\ (forall steps es,
        stop_on_error workflow_config = Ok false ->
        steps_of workflow_config = Ok steps ->
        Forall2 (fun s e => step_entry s = Ok e) steps es ->
        exists rep,
          fst (execute_workflow env workflow_id workflow_config input w) = Ok rep
          /\ report_step_results rep = es
          /\ length (report_step_results rep) = length steps).
Proof.
  rewrite execute_workflow_pure. unfold report_entries.
  split; [| split; [| split]].
  - intros H. unfold stop_on_error. rewrite H. reflexivity.
  - intros policy H Hp. unfold stop_on_error. rewrite H. simpl.
    rewrite Hp. reflexivity.
  - intros before step after es_before en Hstop Hsteps Hbefore Hen Hf.
    rewrite Hsteps. cbn [rbind].
    rewrite (run_entries_stops workflow_config before step after es_before en
               Hstop Hbefore Hen Hf).
    eexists. split; [reflexivity|]. simpl. split; [reflexivity|].
    rewrite length_app. simpl.
    apply Forall2_length in Hbefore. lia.
  - intros steps es Hstop Hsteps Hall.
    rewrite Hsteps. cbn [rbind].
    rewrite (run_entries_all workflow_config steps es).
    + eexists. split; [reflexivity|]. simpl. split; [reflexivity|].
      apply Forall2_length in Hall. lia.
    + eapply Forall2_impl; [exact Hall|]. simpl. intros s e Hs. auto.
Qed.

Lemma stop_on_error_halts_at_first_failure_witness :
  (exists rep,
     fst (execute_workflow healthy_env "wf" bad_delay_workflow ∅ fresh_world)
     = Ok rep
     /\ length (report_step_results rep) = 1%nat)
  /\ (exists rep,
        fst (execute_workflow healthy_env "wf" lenient_workflow ∅ fresh_world)
        = Ok rep
        /\ length (report_step_results rep) = 2%nat).
Proof.
  split.
  - destruct (proj1 (proj2 (proj2 (stop_on_error_halts_at_first_failure
                healthy_env "wf" bad_delay_workflow ∅ fresh_world)))
                []
                (make_step "wait" "delay" {[ "seconds" := VStr "soon" ]})
                [make_step "map" "transform" ∅]
                []
                {| entry_step_id := VStr "wait"; entry_status := "failed";
                   entry_output := None;
                   entry_error :=
                     Some "'<=' not supported between instances of 'str' and 'int'" |})
      as (rep & Hrep & _ & Hlen).
    + vm_compute. reflexivity.
    + vm_compute. reflexivity.
    + constructor.
    + vm_compute. reflexivity.
    + reflexivity.
    + exists rep. split; [exact Hrep | exact Hlen].
  - destruct (proj2 (proj2 (proj2 (stop_on_error_halts_at_first_failure
                healthy_env "wf" lenient_workflow ∅ fresh_world)))
                [make_step "wait" "delay" {[ "seconds" := VStr "soon" ]};
                 make_step "map" "transform" ∅]
                [{| entry_step_id := VStr "wait"; entry_status := "failed";
                    entry_output := None;
                    entry_error :=
                      Some "'<=' not supported between instances of 'str' and 'int'" |};
                 {| entry_step_id := VStr "map"; entry_status := "completed";
                    entry_output := Some {[ "transformed" := VBool true ]};
                    entry_error := None |}])
      as (rep & Hrep & _ & Hlen).
    + vm_compute. reflexivity.
    + vm_compute. reflexivity.
    + repeat constructor; vm_compute; reflexivity.
    + exists rep. split; [exact Hrep | exact Hlen].
Defined.

(** C8, at the failing input. Under [stop_on_error = False] a failed
    step does not end the run: after the failed delay the transform is
    still executed. A step of an undeclared kind does end it:
    [StepType(...)] is evaluated before the [try] of [_execute_step],
    so [execute_workflow] itself raises [ValueError], no report is
    returned, and the transform that follows never runs (the clock is
    read once for the execution id and twice for the delay, never for
    the last two steps). *)
Theorem undeclared_kind_ends_run_under_lenient_policy
  (env : Env) (workflow_id : string) (input : gmap string value) (w : World) :
  let out := execute_workflow env workflow_id lenient_unknown_kind_workflow
               input w in
  stop_on_error lenient_unknown_kind_workflow = Ok false
  /\ fst out = Raise (PyExn "ValueError" "'webhook' is not a valid StepType" None)
  /\ reads (snd out) = S (S (S (reads w)))
  /\ exists rep,
       fst (execute_workflow env workflow_id lenient_workflow input w) = Ok rep
       /\ entry_step_id <$> report_step_results rep = [VStr "wait"; VStr "map"]
       /\ entry_status <$> report_step_results rep = ["failed"; "completed"].
Proof.
  intros out.
  split; [vm_compute; reflexivity|].
  split; [subst out; rewrite execute_workflow_pure; vm_compute; reflexivity|].
  split; [subst out; vm_compute; reflexivity|].
  rewrite execute_workflow_pure.
  assert (H : report_entries lenient_workflow
              = Ok [{| entry_step_id := VStr "wait"; entry_status := "failed";
                       entry_output := None;
                       entry_error :=
                         Some "'<=' not supported between instances of 'str' and 'int'" |};
                    {| entry_step_id := VStr "map"; entry_status := "completed";
                       entry_output := Some {[ "transformed" := VBool true ]};
                       entry_error := None |}])
    by (vm_compute; reflexivity).
  rewrite H. eexists. split; [reflexivity|]. simpl. auto.
Qed.

(** * Further properties *)

(** ** CircuitBreaker *)



(** X2. A half-open breaker, however it was reached, still carries a
    failure count at or above the threshold: the probe it admits
    decides, one failure re-opens the breaker and one success closes
    it with the count back at zero. *)
Theorem half_open_probe_decides
  (st : Settings) (cs : list breaker_call) (now : Z)
  (Hhalf : state (run_calls st cs new_breaker) = HALF_OPEN) :
  let cb := run_calls st cs new_breaker in
  circuit_breaker_threshold st <= failure_count cb
  /\ can_execute st now cb = (true, cb)
  /\ state (record_failure st now cb) = OPEN
  /\ state (record_success cb) = CLOSED
  /\ failure_count (record_success cb) = 0.
Proof.
  intros cb.
  destruct (run_calls_tripped st cs) as [Hc _];
    [rewrite Hhalf; discriminate|].
  fold cb in Hhalf, Hc.
  split; [exact Hc|].
  split; [unfold can_execute; rewrite Hhalf; reflexivity|].
  split; [| split; reflexivity].
  unfold record_failure. simpl.
  destruct (Z.leb_spec (circuit_breaker_threshold st) (failure_count cb + 1));
    [reflexivity | lia].
Qed.

Lemma half_open_probe_decides_witness :
  let cs := [RecordFailure 0; RecordFailure 1; RecordFailure 2;
             RecordFailure 3; RecordFailure 4; CanExecute (seconds 31)] in
  state (record_failure default_settings (seconds 32)
           (run_calls default_settings cs new_breaker)) = OPEN.
Proof.
  intros cs.
  exact (proj1 (proj2 (proj2 (half_open_probe_decides default_settings cs
                                (seconds 32) eq_refl)))).
Defined.

(** X3. With a positive threshold, after any sequence of calls on a
    fresh breaker, cooldowns elapsed or not, the breaker is closed
    exactly when fewer failures than the threshold were recorded since
    the last success. *)
Theorem closed_iff_below_threshold
  (st : Settings) (cs : list breaker_call)
  (Hpos : 0 < circuit_breaker_threshold st) :
  state (run_calls st cs new_breaker) = CLOSED
  <-> failures_since_success cs 0 < circuit_breaker_threshold st.
Proof.
  pose proof (run_calls_count st cs new_breaker) as Hcnt. simpl in Hcnt.
  rewrite <- Hcnt. split.
  - apply run_calls_closed, Hpos.
  - intros Hlt.
    destruct (decide (state (run_calls st cs new_breaker) = CLOSED)) as [|Hn];
      [assumption|].
    destruct (run_calls_tripped st cs Hn) as [Hc _]. lia.
Qed.

Lemma closed_iff_below_threshold_witness :
  state (run_calls default_settings
           [RecordFailure 0; RecordFailure 1; RecordFailure 2; RecordFailure 3;
            RecordFailure 4; CanExecute (seconds 40); RecordSuccess;
            RecordFailure (seconds 41)] new_breaker) = CLOSED.
Proof.
  apply (closed_iff_below_threshold default_settings); [simpl; lia|].
  vm_compute. reflexivity.
Defined.

(** ** IntegrationHttpClient: one turn of the retry loop *)

Lemma attempt_loop_retry env cb req max_retries attempt rest last w e :
  attempt_error (transport env (calls w) req) = Some e ->
  attempt_loop env cb req max_retries (attempt :: rest) last w
  = attempt_loop env cb req max_retries rest (Some e)
      (after_failed_attempt env cb req max_retries attempt w).
Proof.
  intros He. cbn [attempt_loop].
  unfold bind, try_, attempt_once, bind, send, after_failed_attempt,
    breakers_after_attempt.
  destruct (transport env (calls w) req) as [e'|resp]; simpl in He.
  - inversion He; subst e'. cbn iota beta.
    unfold breaker_record_failure, bind, utcnow. cbn iota beta.
    destruct (attempt <? max_retries); reflexivity.
  - unfold breaker_record_success. cbn iota beta.
    destruct (content resp); try discriminate.
    inversion He; subst. unfold raise. cbn iota beta.
    unfold breaker_record_failure, bind, utcnow. cbn iota beta.
    destruct (attempt <? max_retries); reflexivity.
Qed.

Lemma attempt_loop_success env cb req max_retries attempt rest last w resp body :
  transport env (calls w) req = Accepted resp ->
  body_of (content resp) = Some body ->
  attempt_loop env cb req max_retries (attempt :: rest) last w
  = (Ok (response_summary resp body),
     {| circuit_breakers := alter record_success cb (circuit_breakers w);
        rate_limiters := rate_limiters w;
        reads := reads w;
        calls := S (calls w);
        trace := trace w ++ [Sent req] |}).
Proof.
  intros Ht Hb. cbn [attempt_loop].
  unfold bind, try_, attempt_once, bind, send. rewrite Ht.
  unfold breaker_record_success. cbn iota beta.
  destruct (content resp); simpl in Hb; inversion Hb; subst; reflexivity.
Qed.

Lemma breakers_after_attempt_lookup st now cb o m :
  breakers_after_attempt st now cb o m !! cb
  = breaker_after_attempt st now o <$> m !! cb.
Proof.
  unfold breakers_after_attempt, breaker_after_attempt.
  destruct o as [e|resp]; [apply lookup_alter_eq|].
  destruct (content resp); rewrite ?lookup_alter_eq; try reflexivity.
  destruct (m !! cb); reflexivity.
Qed.

Lemma breakers_after_attempt_other st now cb o m k :
  cb <> k -> breakers_after_attempt st now cb o m !! k = m !! k.
Proof.
  intros Hne. unfold breakers_after_attempt.
  destruct o as [e|resp]; [apply lookup_alter_ne, Hne|].
  destruct (content resp); rewrite ?lookup_alter_ne by exact Hne; reflexivity.
Qed.

(** ** IntegrationHttpClient: the guards, case by case *)

Lemma get_circuit_breaker_old id w b :
  circuit_breakers w !! id = Some b -> _get_circuit_breaker id w = (Ok id, w).
Proof. intros H. unfold _get_circuit_breaker. rewrite H. reflexivity. Qed.

Lemma get_rate_limiter_old env id r w l :
  rate_limiters w !! id = Some l -> _get_rate_limiter env id r w = (Ok id, w).
Proof. intros H. unfold _get_rate_limiter. rewrite H. reflexivity. Qed.

Lemma set_breakers_id w id b :
  circuit_breakers w !! id = Some b -> set_breakers <[id := b]> w = w.
Proof.
  intros H. unfold set_breakers. rewrite insert_id by exact H.
  destruct w; reflexivity.
Qed.



(** X5. A call to a connector whose breaker is closed and whose
    limiter has no token left is refused with the rate-limit
    exception before anything is sent; the limiter keeps the refilled
    bucket and the new timestamp. *)
Theorem exhausted_limiter_rejects_without_sending
  (env : Env) (connector_id : string) (req : Request) (retries : option Z)
  (w : World) (b : CircuitBreaker) (l l' : RateLimiter)
  (Hbreaker : circuit_breakers w !! connector_id = Some b)
  (Hlimiter : rate_limiters w !! connector_id = Some l)
  (Hclosed : state b = CLOSED)
  (Hempty : acquire (utcnow_at env (reads w)) l = (Ok false, l')) :
  let out := request env connector_id req retries w in
  fst out = Raise (rate_limit_error connector_id)
  /\ calls (snd out) = calls w
  /\ trace (snd out) = trace w
  /\ rate_limiters (snd out) = <[connector_id := l']> (rate_limiters w)
  /\ circuit_breakers (snd out) = circuit_breakers w.
Proof.
  intros out. subst out.
  unfold request, request_guards, bind.
  rewrite (get_circuit_breaker_old _ _ _ Hbreaker).
  rewrite (get_rate_limiter_old _ _ _ _ _ Hlimiter).
  unfold breaker_can_execute. rewrite Hbreaker.
  unfold can_execute_reads_clock, can_execute. rewrite Hclosed.
  cbn [negb]. cbn iota beta. rewrite (set_breakers_id _ _ _ Hbreaker).
  unfold limiter_acquire. rewrite Hlimiter.
  unfold bind, utcnow. cbn iota beta. rewrite Hempty. simpl. auto.
Qed.

Lemma exhausted_limiter_rejects_without_sending_witness :
  let w := {| circuit_breakers := {[ "crm" := new_breaker ]};
              rate_limiters := {[ "crm" := {| rate := 2; window := 60;
                                              tokens := NFloat 0%float;
                                              last_update := 0 |} ]};
              reads := 0; calls := 0; trace := [] |} in
  fst (request healthy_env "crm" sample_request None w)
  = Raise (rate_limit_error "crm").
Proof.
  intros w.
  refine (proj1 (exhausted_limiter_rejects_without_sending healthy_env "crm"
                   sample_request None w new_breaker
                   {| rate := 2; window := 60; tokens := NFloat 0%float;
                      last_update := 0 |}
                   {| rate := 2; window := 60; tokens := NFloat 0%float;
                      last_update := 0 |} _ _ eq_refl _)).
  - vm_compute. reflexivity.
  - vm_compute. reflexivity.
  - vm_compute. reflexivity.
Defined.

(** ** IntegrationHttpClient: the registries *)

Lemma registry_grows_refl w : registry_grows w w.
Proof. intros k. auto. Qed.

Lemma registry_grows_trans w1 w2 w3 :
  registry_grows w1 w2 -> registry_grows w2 w3 -> registry_grows w1 w3.
Proof.
  intros H12 H23 k. destruct (H12 k), (H23 k). auto.
Qed.

Lemma grows_ret {A} (a : A) : grows (ret a).
Proof. intros w. apply registry_grows_refl. Qed.

Lemma grows_raise {A} e : grows (@raise A e).
Proof. intros w. apply registry_grows_refl. Qed.

Lemma grows_bind {A B} (m : M A) (k : A -> M B) :
  grows m -> (forall a, grows (k a)) -> grows (bind m k).
Proof.
  intros Hm Hk w. unfold bind. specialize (Hm w).
  destruct (m w) as [[a|e] w1]; simpl in *; [| exact Hm].
  eapply registry_grows_trans; [exact Hm | apply Hk].
Qed.

Lemma grows_try {A} (m : M A) : grows m -> grows (try_ m).
Proof.
  intros Hm w. unfold try_. specialize (Hm w).
  destruct (m w) as [r w1]. exact Hm.
Qed.

Lemma grows_if {A} (b : bool) (m1 m2 : M A) :
  grows m1 -> grows m2 -> grows (if b then m1 else m2).
Proof. destruct b; auto. Qed.

Lemma grows_utcnow env : grows (utcnow env).
Proof. intros w k. simpl. auto. Qed.

Lemma grows_sleep d : grows (sleep d).
Proof. intros w k. simpl. auto. Qed.

Lemma grows_send env req : grows (send env req).
Proof.
  intros w k. unfold send.
  destruct (transport env (calls w) req); simpl; auto.
Qed.

Lemma registry_grows_alter_breaker f cb w :
  registry_grows w (set_breakers (alter f cb) w).
Proof.
  intros k. simpl. split; [| auto].
  intros H. apply lookup_alter_is_Some. exact H.
Qed.

Lemma registry_grows_insert_breaker cb b w :
  registry_grows w (set_breakers <[cb := b]> w).
Proof.
  intros k. simpl. split; [| auto].
  intros H. apply lookup_insert_is_Some'. auto.
Qed.

Lemma registry_grows_insert_limiter rl l w :
  registry_grows w (set_limiters <[rl := l]> w).
Proof.
  intros k. simpl. split; [auto |].
  intros H. apply lookup_insert_is_Some'. auto.
Qed.

Lemma grows_get_circuit_breaker id : grows (_get_circuit_breaker id).
Proof.
  intros w. unfold _get_circuit_breaker.
  destruct (circuit_breakers w !! id); simpl;
    [apply registry_grows_refl | apply registry_grows_insert_breaker].
Qed.

Lemma grows_get_rate_limiter env id r : grows (_get_rate_limiter env id r).
Proof.
  intros w. unfold _get_rate_limiter.
  destruct (rate_limiters w !! id); simpl; [apply registry_grows_refl|].
  intros k. simpl. split; [auto|].
  intros H. apply lookup_insert_is_Some'. auto.
Qed.

Lemma grows_breaker_record_success cb : grows (breaker_record_success cb).
Proof. intros w. apply registry_grows_alter_breaker. Qed.

Lemma grows_breaker_record_failure env cb : grows (breaker_record_failure env cb).
Proof.
  intros w. unfold breaker_record_failure, bind, utcnow. simpl.
  intros k. simpl. split; [| auto].
  intros H. apply lookup_alter_is_Some. exact H.
Qed.

Lemma grows_breaker_can_execute env cb : grows (breaker_can_execute env cb).
Proof.
  intros w. unfold breaker_can_execute.
  destruct (circuit_breakers w !! cb) as [b|]; [| apply registry_grows_refl].
  destruct (can_execute_reads_clock b); unfold bind, utcnow; simpl;
    destruct (can_execute _ _ b); simpl; intros k; simpl;
    (split; [| auto]); intros H; apply lookup_insert_is_Some'; auto.
Qed.

Lemma grows_limiter_acquire env rl : grows (limiter_acquire env rl).
Proof.
  intros w. unfold limiter_acquire.
  destruct (rate_limiters w !! rl) as [l|]; [| apply registry_grows_refl].
  unfold bind, utcnow; simpl. destruct (acquire _ l); simpl.
  intros k. simpl. split; [auto|].
  intros H. apply lookup_insert_is_Some'. auto.
Qed.

Create HintDb registry.
#[local] Hint Resolve grows_ret grows_raise grows_bind grows_try grows_if
  grows_utcnow grows_sleep grows_send grows_get_circuit_breaker
  grows_get_rate_limiter grows_breaker_record_success
  grows_breaker_record_failure grows_breaker_can_execute
  grows_limiter_acquire : registry.

Lemma grows_attempt_once env cb req : grows (attempt_once env cb req).
Proof.
  unfold attempt_once.
  apply grows_bind; [auto with registry | intros resp].
  apply grows_bind; [auto with registry | intros _].
  apply grows_bind; [| auto with registry].
  destruct (content resp); auto with registry.
Qed.

Lemma grows_attempt_loop env cb req max_retries attempts :
  forall last, grows (attempt_loop env cb req max_retries attempts last).
Proof.
  induction attempts as [|attempt rest IH]; intros last; simpl.
  - unfold raise_last. destruct last; auto with registry.
  - apply grows_bind; [apply grows_try, grows_attempt_once | intros r].
    destruct r as [summary|e]; [auto with registry|].
    apply grows_bind; [auto with registry | intros _].
    apply grows_bind; [auto with registry | intros _].
    apply IH.
Qed.

Lemma grows_request_guards env id : grows (request_guards env id).
Proof.
  unfold request_guards.
  repeat (first [ apply grows_bind; [| intros ?]
                | apply grows_if
                | solve [auto with registry] ]).
Qed.

Lemma grows_request env id req retries : grows (request env id req retries).
Proof.
  unfold request.
  apply grows_bind; [apply grows_request_guards | intros cb].
  apply grows_attempt_loop.
Qed.

(** The values the computations hand on. *)
Lemma returns_ret {A} (P : A -> Prop) a : P a -> returns P (ret a).
Proof. intros H w b Hb. inversion Hb; subst. exact H. Qed.

Lemma returns_raise {A} (P : A -> Prop) e : returns P (raise e).
Proof. intros w b Hb. discriminate Hb. Qed.

Lemma returns_bind {A B} (Q : A -> Prop) (P : B -> Prop) (m : M A) (k : A -> M B) :
  returns Q m -> (forall a, Q a -> returns P (k a)) -> returns P (bind m k).
Proof.
  intros Hm Hk w b H. unfold bind in H.
  destruct (m w) as [[a|e] w1] eqn:E; simpl in *; [| discriminate].
  eapply Hk; [| exact H]. eapply Hm. rewrite E. reflexivity.
Qed.

Lemma returns_if {A} (P : A -> Prop) (b : bool) (m1 m2 : M A) :
  returns P m1 -> returns P m2 -> returns P (if b then m1 else m2).
Proof. destruct b; auto. Qed.

Lemma returns_any {A} (m : M A) : returns (fun _ => True) m.
Proof. intros w a _. exact I. Qed.

Lemma returns_get_circuit_breaker id :
  returns (fun cb => cb = id) (_get_circuit_breaker id).
Proof.
  intros w a H. unfold _get_circuit_breaker in H.
  destruct (circuit_breakers w !! id); inversion H; reflexivity.
Qed.

Lemma returns_get_rate_limiter env id r :
  returns (fun rl => rl = id) (_get_rate_limiter env id r).
Proof.
  intros w a H. unfold _get_rate_limiter in H.
  destruct (rate_limiters w !! id); inversion H; reflexivity.
Qed.

Lemma returns_request_guards env id :
  returns (fun cb => cb = id) (request_guards env id).
Proof.
  unfold request_guards.
  eapply returns_bind; [apply returns_get_circuit_breaker | intros cb ->].
  eapply returns_bind; [apply returns_any | intros rl _].
  eapply returns_bind; [apply returns_any | intros ok _].
  apply returns_if; [apply returns_raise|].
  eapply returns_bind; [apply returns_any | intros got _].
  apply returns_if; [apply returns_raise | apply returns_ret; reflexivity].
Qed.

Lemma request_guards_key env id w cb w1 :
  request_guards env id w = (Ok cb, w1) -> cb = id.
Proof.
  intros H. eapply (returns_request_guards env id w). rewrite H. reflexivity.
Qed.

Lemma bind_ok {A B} (m : M A) (k : A -> M B) w a w1 :
  m w = (Ok a, w1) -> bind m k w = k a w1.
Proof. intros H. unfold bind. rewrite H. reflexivity. Qed.

Lemma request_guards_registers env id w :
  is_Some (circuit_breakers (snd (request_guards env id w)) !! id)
  /\ is_Some (rate_limiters (snd (request_guards env id w)) !! id).
Proof.
  unfold request_guards.
  assert (Ha : exists wa, _get_circuit_breaker id w = (Ok id, wa)
                          /\ is_Some (circuit_breakers wa !! id)).
  { unfold _get_circuit_breaker.
    destruct (circuit_breakers w !! id) eqn:E; eexists; (split; [reflexivity|]).
    - rewrite E. eauto.
    - simpl. rewrite lookup_insert_eq. eauto. }
  destruct Ha as (wa & Ha & Hcb). rewrite (bind_ok _ _ _ _ _ Ha).
  assert (Hb : exists wb, _get_rate_limiter env id None wa = (Ok id, wb)
                          /\ is_Some (rate_limiters wb !! id)
                          /\ circuit_breakers wb = circuit_breakers wa).
  { unfold _get_rate_limiter.
    destruct (rate_limiters wa !! id) eqn:E; [eexists; split; [reflexivity|]|].
    - rewrite E. eauto.
    - unfold bind, utcnow. simpl. eexists. split; [reflexivity|]. simpl.
      rewrite lookup_insert_eq. eauto. }
  destruct Hb as (wb & Hb & Hrl & Heq). rewrite <- Heq in Hcb.
  rewrite (bind_ok _ _ _ _ _ Hb).
  match goal with |- context [snd (?R wb)] =>
    assert (Hg : registry_grows wb (snd (R wb)))
  end.
  { apply grows_bind; [auto with registry | intros ok].
    apply grows_if; [auto with registry|].
    apply grows_bind; [auto with registry | intros got].
    apply grows_if; auto with registry. }
  destruct (Hg id) as [H1 H2]. split; [exact (H1 Hcb) | exact (H2 Hrl)].
Qed.

(** X6. Every call, whatever its outcome, leaves a breaker and a
    limiter registered for its connector, and removes no entry of
    either registry. *)
Theorem request_registers_and_never_removes
  (env : Env) (connector_id : string) (req : Request) (retries : option Z)
  (w : World) :
  let w' := snd (request env connector_id req retries w) in
  is_Some (circuit_breakers w' !! connector_id)
  /\ is_Some (rate_limiters w' !! connector_id)
  /\ (forall k, is_Some (circuit_breakers w !! k) ->
                is_Some (circuit_breakers w' !! k))
  /\ (forall k, is_Some (rate_limiters w !! k) ->
                is_Some (rate_limiters w' !! k)).
Proof.
  intros w'.
  pose proof (grows_request env connector_id req retries w) as Hg.
  fold w' in Hg.
  assert (Hreg : is_Some (circuit_breakers w' !! connector_id)
                 /\ is_Some (rate_limiters w' !! connector_id)).
  { subst w'. unfold request, bind.
    pose proof (request_guards_registers env connector_id w) as [H1 H2].
    destruct (request_guards env connector_id w) as [[cb|e] w1];
      simpl in *; [| auto].
    pose proof (grows_attempt_loop env cb req
                  (resolve_max_retries env retries)
                  (py_range (resolve_max_retries env retries + 1)) None w1
                  connector_id) as [G1 G2].
    auto. }
  destruct Hreg as [H1 H2].
  repeat split; auto; intros k Hk; destruct (Hg k); auto.
Qed.

Lemma preserves_bind_val {A B X} (f : World -> X) (P : A -> Prop)
  (m : M A) (k : A -> M B) :
  preserves f m -> returns P m -> (forall a, P a -> preserves f (k a)) ->
  preserves f (bind m k).
Proof.
  intros Hm Hr Hk w. unfold bind.
  specialize (Hm w). specialize (Hr w).
  destruct (m w) as [[a|e] w1]; simpl in *; [| exact Hm].
  rewrite Hk; [exact Hm | apply Hr; reflexivity].
Qed.

Section OtherConnector.
Variable env : Env.
Variables id other : string.
Hypothesis different : id <> other.

Lemma other_utcnow : preserves (connector_view other) (utcnow env).
Proof. intros w. reflexivity. Qed.

Lemma other_sleep d : preserves (connector_view other) (sleep d).
Proof. intros w. reflexivity. Qed.

Lemma other_send req : preserves (connector_view other) (send env req).
Proof.
  intros w. unfold send. destruct (transport env (calls w) req); reflexivity.
Qed.

Lemma other_get_circuit_breaker :
  preserves (connector_view other) (_get_circuit_breaker id).
Proof.
  intros w. unfold _get_circuit_breaker, connector_view.
  destruct (circuit_breakers w !! id); simpl; [reflexivity|].
  rewrite lookup_insert_ne by exact different. reflexivity.
Qed.

Lemma other_get_rate_limiter r :
  preserves (connector_view other) (_get_rate_limiter env id r).
Proof.
  intros w. unfold _get_rate_limiter, connector_view.
  destruct (rate_limiters w !! id); simpl; [reflexivity|].
  rewrite lookup_insert_ne by exact different. reflexivity.
Qed.

Lemma other_breaker_record_success :
  preserves (connector_view other) (breaker_record_success id).
Proof.
  intros w. unfold connector_view. simpl.
  rewrite lookup_alter_ne by exact different. reflexivity.
Qed.

Lemma other_breaker_record_failure :
  preserves (connector_view other) (breaker_record_failure env id).
Proof.
  intros w. unfold connector_view. simpl.
  rewrite lookup_alter_ne by exact different. reflexivity.
Qed.

Lemma other_breaker_can_execute :
  preserves (connector_view other) (breaker_can_execute env id).
Proof.
  intros w. unfold breaker_can_execute, connector_view.
  destruct (circuit_breakers w !! id) as [b|]; [| reflexivity].
  destruct (can_execute_reads_clock b); unfold bind, utcnow; simpl;
    destruct (can_execute _ _ b); simpl;
    rewrite lookup_insert_ne by exact different; reflexivity.
Qed.

Lemma other_limiter_acquire :
  preserves (connector_view other) (limiter_acquire env id).
Proof.
  intros w. unfold limiter_acquire, connector_view.
  destruct (rate_limiters w !! id) as [l|]; [| reflexivity].
  unfold bind, utcnow; simpl. destruct (acquire _ l); simpl.
  rewrite lookup_insert_ne by exact different. reflexivity.
Qed.

Lemma other_attempt_once req :
  preserves (connector_view other) (attempt_once env id req).
Proof.
  unfold attempt_once.
  apply preserves_bind; [apply other_send | intros resp].
  apply preserves_bind; [apply other_breaker_record_success | intros _].
  apply preserves_bind; [| auto with quiet].
  destruct (content resp); auto with quiet.
Qed.

Lemma other_attempt_loop req max_retries attempts :
  forall last,
    preserves (connector_view other)
      (attempt_loop env id req max_retries attempts last).
Proof.
  induction attempts as [|attempt rest IH]; intros last; simpl.
  - unfold raise_last. destruct last; auto with quiet.
  - apply preserves_bind; [apply preserves_try, other_attempt_once | intros r].
    destruct r as [summary|e]; [auto with quiet|].
    apply preserves_bind; [apply other_breaker_record_failure | intros _].
    apply preserves_bind;
      [apply preserves_if; auto using other_sleep with quiet | intros _].
    apply IH.
Qed.

Lemma other_request_guards :
  preserves (connector_view other) (request_guards env id).
Proof.
  unfold request_guards.
  eapply preserves_bind_val;
    [apply other_get_circuit_breaker | apply returns_get_circuit_breaker
    | intros cb ->].
  eapply preserves_bind_val;
    [apply other_get_rate_limiter | apply returns_get_rate_limiter
    | intros rl ->].
  apply preserves_bind; [apply other_breaker_can_execute | intros ok].
  apply preserves_if; [auto with quiet|].
  apply preserves_bind; [apply other_limiter_acquire | intros got].
  apply preserves_if; auto with quiet.
Qed.

Lemma other_request req retries :
  preserves (connector_view other) (request env id req retries).
Proof.
  unfold request.
  eapply preserves_bind_val;
    [apply other_request_guards | apply returns_request_guards | intros cb ->].
  apply other_attempt_loop.
Qed.
End OtherConnector.

(** X7. A call on one connector, whatever its outcome, leaves the
    breaker and the limiter of every other connector exactly as they
    were. *)
Theorem request_leaves_other_connectors_alone
  (env : Env) (connector_id other : string) (req : Request)
  (retries : option Z) (w : World)
  (Hother : connector_id <> other) :
  let w' := snd (request env connector_id req retries w) in
  circuit_breakers w' !! other = circuit_breakers w !! other
  /\ rate_limiters w' !! other = rate_limiters w !! other.
Proof.
  intros w'.
  pose proof (other_request env connector_id other Hother req retries w) as H.
  unfold connector_view in H. fold w' in H. inversion H. auto.
Qed.

Lemma request_leaves_other_connectors_alone_witness :
  let w := snd (request healthy_env "billing" sample_request None fresh_world) in
  circuit_breakers (snd (request failing_env "crm" sample_request None w))
    !! "billing"
  = circuit_breakers w !! "billing".
Proof.
  intros w.
  apply (request_leaves_other_connectors_alone failing_env "crm" "billing").
  discriminate.
Defined.

(** ** IntegrationHttpClient: how a call ends *)

Lemma py_range_nonpositive n : n <= 0 -> py_range n = [].
Proof.
  intros H. unfold py_range.
  replace (Z.to_nat n) with 0%nat by lia. reflexivity.
Qed.

(** X8. With a negative retry count (an explicit [retries], or the
    default when [retries] is absent or zero) an admitted call makes
    no attempt at all: the loop body never runs and [raise
    last_exception] raises [TypeError] on [None], with nothing sent. *)
Theorem negative_retries_send_nothing
  (env : Env) (connector_id : string) (req : Request) (retries : option Z)
  (w w1 : World) (cb : string)
  (Hguards : request_guards env connector_id w = (Ok cb, w1))
  (Hneg : resolve_max_retries env retries < 0) :
  request env connector_id req retries w
  = (Raise (PyExn "TypeError" "exceptions must derive from BaseException" None),
     w1)
  /\ calls w1 = calls w
  /\ trace w1 = trace w.
Proof.
  pose proof (request_guards_network env connector_id w) as Hq.
  rewrite Hguards in Hq. unfold network_view in Hq. simpl in Hq.
  injection Hq as Hc Ht.
  split; [| split; assumption].
  unfold request. rewrite (bind_ok _ _ _ _ _ Hguards).
  rewrite py_range_nonpositive by lia. reflexivity.
Qed.

Lemma negative_retries_send_nothing_witness :
  fst (request healthy_env "crm" sample_request (Some (-1)) fresh_world)
  = Raise (PyExn "TypeError" "exceptions must derive from BaseException" None).
Proof.
  rewrite (proj1 (negative_retries_send_nothing healthy_env "crm"
                    sample_request (Some (-1)) fresh_world
                    (snd (request_guards healthy_env "crm" fresh_world)) "crm"
                    ltac:(vm_compute; reflexivity)
                    ltac:(vm_compute; reflexivity))).
  reflexivity.
Defined.

Section RetryLoop.
Variable env : Env.
Variable cb : string.
Variable req : Request.
Variable max_retries : Z.

Lemma attempt_loop_eventual_success resp body pre :
  forall attempt post last w,
    (forall j, (j < length pre)%nat ->
               attempt_error (transport env (calls w + j) req) <> None) ->
    transport env (calls w + length pre) req = Accepted resp ->
    body_of (content resp) = Some body ->
    Forall (fun x => x < max_retries) pre ->
    let out := attempt_loop env cb req max_retries
                 (pre ++ attempt :: post) last w in
    fst out = Ok (response_summary resp body)
    /\ calls (snd out) = S (calls w + length pre)
    /\ trace (snd out)
       = trace w
         ++ flat_map (fun x => [Sent req;
                                Slept (NInt (retry_delay (settings env) x))])
                     pre
         ++ [Sent req]
    /\ rate_limiters (snd out) = rate_limiters w
    /\ (is_Some (circuit_breakers w !! cb) ->
        exists b, circuit_breakers (snd out) !! cb = Some b
                  /\ state b = CLOSED /\ failure_count b = 0).
Proof.
  induction pre as [|x pre IH]; intros attempt post last w Hfail Hok Hbody Hlt out.
  - subst out. cbn [app length] in *. rewrite Nat.add_0_r in Hok.
    rewrite (attempt_loop_success env cb req max_retries attempt post last w
               resp body Hok Hbody).
    cbn [fst snd calls trace rate_limiters circuit_breakers flat_map app].
    rewrite Nat.add_0_r. repeat split; try reflexivity.
    intros [b Hb]. exists (record_success b).
    rewrite lookup_alter_eq, Hb. simpl. auto.
  - subst out. simpl app.
    destruct (attempt_error (transport env (calls w) req)) as [e|] eqn:He.
    2:{ exfalso. apply (Hfail 0%nat); [simpl; lia|].
        rewrite Nat.add_0_r. exact He. }
    rewrite (attempt_loop_retry env cb req max_retries x (pre ++ attempt :: post)
               last w e He).
    inversion Hlt as [|? ? Hx Hpre]; subst.
    set (w3 := after_failed_attempt env cb req max_retries x w).
    assert (Hc3 : calls w3 = S (calls w)) by reflexivity.
    specialize (IH attempt post (Some e) w3). cbv zeta in IH.
    destruct IH as (IHr & IHc & IHt & IHl & IHb).
    + intros j Hj. rewrite Hc3.
      replace (S (calls w) + j)%nat with (calls w + S j)%nat by lia.
      apply Hfail. simpl. lia.
    + rewrite Hc3.
      replace (S (calls w) + length pre)%nat
        with (calls w + length (x :: pre))%nat by (simpl; lia).
      exact Hok.
    + exact Hbody.
    + exact Hpre.
    + rewrite IHr, IHc, IHt, IHl, Hc3.
      split; [reflexivity|]. split; [simpl; lia|].
      split.
      { subst w3. unfold after_failed_attempt. cbn [trace].
        apply Z.ltb_lt in Hx. rewrite Hx. simpl.
        rewrite <- !app_assoc. reflexivity. }
      split; [reflexivity|].
      intros Hsome. apply IHb. subst w3. unfold after_failed_attempt.
      cbn [circuit_breakers]. rewrite breakers_after_attempt_lookup.
      destruct Hsome as [b Hb]. rewrite Hb. simpl. eauto.
Qed.

(** After a failed attempt that got no response, on the breaker. *)
Lemma attempt_loop_exhausted_breaker rest :
  forall attempt last w b,
    (forall j, exists e, transport env j req = NoResponse e) ->
    circuit_breakers w !! cb = Some b ->
    let out := attempt_loop env cb req max_retries (attempt :: rest) last w in
    reads (snd out) = (reads w + S (length rest))%nat
    /\ rate_limiters (snd out) = rate_limiters w
    /\ exists b',
         circuit_breakers (snd out) !! cb = Some b'
         /\ failure_count b' = failure_count b + Z.of_nat (S (length rest))
         /\ state b'
            = (if circuit_breaker_threshold (settings env) <=? failure_count b'
               then OPEN else state b)
         /\ last_failure_time b'
            = Some (utcnow_at env (reads w + length rest)).
Proof.
  induction rest as [|attempt' rest IH]; intros attempt last w b Hno Hb out;
    subst out; destruct (Hno (calls w)) as [e He];
    assert (Herr : attempt_error (transport env (calls w) req) = Some e)
      by (rewrite He; reflexivity);
    rewrite (attempt_loop_retry env cb req max_retries attempt _ last w e Herr);
    set (w3 := after_failed_attempt env cb req max_retries attempt w);
    assert (Hb3 : circuit_breakers w3 !! cb
                  = Some (record_failure (settings env) (utcnow_at env (reads w)) b))
      by (subst w3; unfold after_failed_attempt; cbn [circuit_breakers];
          rewrite breakers_after_attempt_lookup, Hb, He; reflexivity).
  - simpl. split; [lia|]. split; [reflexivity|].
    eexists. split; [exact Hb3|]. simpl.
    rewrite Nat.add_0_r. repeat split; reflexivity.
  - specialize (IH attempt' (Some e) w3 _ Hno Hb3). cbv zeta in IH.
    destruct IH as (IHr & IHl & b' & Hb' & Hcount & Hstate & Htime).
    rewrite IHr, IHl. split; [subst w3; simpl; lia|].
    split; [reflexivity|].
    exists b'. split; [exact Hb'|].
    simpl in Hcount. split; [simpl length; lia|].
    split.
    + rewrite Hstate. simpl.
      destruct (Z.leb_spec (circuit_breaker_threshold (settings env))
                  (failure_count b')); [reflexivity|].
      destruct (Z.leb_spec (circuit_breaker_threshold (settings env))
                  (failure_count b + 1)); [lia | reflexivity].
    + rewrite Htime. subst w3. simpl. do 2 f_equal. lia.
Qed.

(** After attempts that were accepted and then found not to be JSON. *)
Lemma attempt_loop_not_json_breaker rest :
  forall attempt last w b,
    (forall j, exists resp e,
        transport env j req = Accepted resp /\ content resp = NotJson e) ->
    circuit_breakers w !! cb = Some b ->
    let out := attempt_loop env cb req max_retries (attempt :: rest) last w in
    calls (snd out) = (calls w + S (length rest))%nat
    /\ exists b',
         circuit_breakers (snd out) !! cb = Some b'
         /\ failure_count b' = 1
         /\ state b'
            = (if circuit_breaker_threshold (settings env) <=? 1
               then OPEN else CLOSED).
Proof.
  induction rest as [|attempt' rest IH]; intros attempt last w b Hno Hb out;
    subst out; destruct (Hno (calls w)) as (resp & e & He & Hc);
    assert (Herr : attempt_error (transport env (calls w) req) = Some e)
      by (rewrite He; simpl; rewrite Hc; reflexivity);
    rewrite (attempt_loop_retry env cb req max_retries attempt _ last w e Herr);
    set (w3 := after_failed_attempt env cb req max_retries attempt w);
    assert (Hb3 : circuit_breakers w3 !! cb
                  = Some (record_failure (settings env) (utcnow_at env (reads w))
                            (record_success b)))
      by (subst w3; unfold after_failed_attempt; cbn [circuit_breakers];
          rewrite breakers_after_attempt_lookup, Hb, He; simpl;
          rewrite Hc; reflexivity).
  - simpl. split; [lia|].
    eexists. split; [exact Hb3|]. simpl. auto.
  - specialize (IH attempt' (Some e) w3 _ Hno Hb3). cbv zeta in IH.
    destruct IH as (IHc & b' & Hb' & Hcount & Hstate).
    rewrite IHc. split; [subst w3; simpl; lia|].
    exists b'. auto.
Qed.
End RetryLoop.

Lemma py_range_split n (k : nat) :
  Z.of_nat k <= n ->
  exists post, py_range (n + 1) = py_range (Z.of_nat k) ++ Z.of_nat k :: post.
Proof.
  intros Hk. unfold py_range.
  replace (Z.to_nat (n + 1)) with (k + S (Z.to_nat n - k))%nat by lia.
  rewrite seq_app, fmap_app. simpl.
  rewrite Nat2Z.id. eexists. reflexivity.
Qed.

Lemma py_range_cons n : 0 <= n -> exists rest, py_range (n + 1) = 0 :: rest
                                               /\ length rest = Z.to_nat n.
Proof.
  intros Hn. unfold py_range.
  replace (Z.to_nat (n + 1)) with (S (Z.to_nat n)) by lia.
  simpl. eexists. split; [reflexivity|].
  rewrite length_fmap, length_seq. reflexivity.
Qed.







(** X12. With [rate_limit_window] set to zero, the first call to any
    connector creates its limiter and then fails inside [acquire] with
    [ZeroDivisionError], before anything is sent: the window is
    divided by, never checked. *)
Theorem zero_window_fails_first_call
  (env : Env) (connector_id : string) (req : Request) (retries : option Z)
  (w : World)
  (Hbreaker : circuit_breakers w !! connector_id = None)
  (Hlimiter : rate_limiters w !! connector_id = None)
  (Hzero : rate_limit_window (settings env) = 0) :
  let out := request env connector_id req retries w in
  fst out = Raise ZeroDivisionError
  /\ calls (snd out) = calls w
  /\ trace (snd out) = trace w
  /\ is_Some (rate_limiters (snd out) !! connector_id).
Proof.
  intros out.
  pose proof (request_guards_network env connector_id w) as Hq.
  pose proof (request_guards_registers env connector_id w) as [_ Hreg].
  assert (Hg : fst (request_guards env connector_id w) = Raise ZeroDivisionError).
  { unfold request_guards, bind, _get_circuit_breaker. rewrite Hbreaker.
    unfold _get_rate_limiter. cbn [rate_limiters set_breakers].
    rewrite Hlimiter. unfold bind, utcnow. cbn iota beta.
    unfold breaker_can_execute.
    cbn [circuit_breakers set_limiters set_breakers].
    rewrite lookup_insert_eq. cbn iota beta.
    cbn [can_execute_reads_clock can_execute new_breaker state
         last_failure_time negb].
    cbn iota beta. unfold limiter_acquire.
    cbn [rate_limiters set_limiters set_breakers].
    rewrite lookup_insert_eq. unfold bind, utcnow. cbn iota beta.
    unfold acquire, new_limiter. cbn [window]. rewrite Hzero.
    reflexivity. }
  subst out. unfold request, bind.
  destruct (request_guards env connector_id w) as [[cb|e] w1];
    simpl in Hg; [discriminate|].
  inversion Hg; subst e. unfold network_view in Hq. simpl in *.
  injection Hq as Hc Ht. auto.
Qed.

Lemma zero_window_fails_first_call_witness :
  fst (request zero_window_env "crm" sample_request None fresh_world)
  = Raise ZeroDivisionError.
Proof.
  apply (zero_window_fails_first_call zero_window_env "crm" sample_request None
           fresh_world);
    reflexivity.
Defined.

(** ** Workflow engine: further properties *)

Lemma run_entries_Forall (P : StepEntry -> Prop) workflow_config :
  (forall s en, step_entry s = Ok en -> P en) ->
  forall steps es, run_entries workflow_config steps = Ok es -> Forall P es.
Proof.
  intros HP. induction steps as [|step rest IH]; intros es H; simpl in H.
  - inversion H. constructor.
  - destruct (step_entry step) as [en|] eqn:Hen; [| discriminate].
    cbn [rbind] in H.
    destruct (breaks_after workflow_config en) as [[]|]; cbn [rbind] in H;
      [| | discriminate].
    + inversion H; subst. constructor; [eapply HP; exact Hen | constructor].
    + destruct (run_entries workflow_config rest) as [es'|]; [| discriminate].
      inversion H; subst.
      constructor; [eapply HP; exact Hen | apply IH; reflexivity].
Qed.

Lemma step_entry_consistent step en :
  step_entry step = Ok en -> entry_consistent en.
Proof.
  unfold step_entry, rbind, entry_consistent.
  destruct (py_get step "id" VNone); [| discriminate].
  destruct (py_get step "type" VNone); [| discriminate].
  destruct (StepType_of _); [| discriminate].
  destruct (py_get step "config" _); [| discriminate].
  intros H. inversion H; subst.
  destruct (dispatch_outcome _ _); simpl; [left | right]; eauto.
Qed.

Lemma report_entries_of_report env workflow_id workflow_config input w rep :
  fst (execute_workflow env workflow_id workflow_config input w) = Ok rep ->
  exists steps,
    steps_of workflow_config = Ok steps
    /\ run_entries workflow_config steps = Ok (report_step_results rep)
    /\ report_status rep = final_status_of (report_step_results rep)
    /\ report_execution_id rep = utcnow_at env (reads w).
Proof.
  rewrite execute_workflow_pure. unfold report_entries. intros H.
  destruct (steps_of workflow_config) as [steps|]; [| discriminate].
  cbn [rbind] in H.
  destruct (run_entries workflow_config steps) as [es|] eqn:Hes; [| discriminate].
  inversion H; subst rep. exists steps. simpl. auto.
Qed.

(** X13. A workflow without steps, the key missing or the list empty,
    is reported completed with no entries; the run reads the clock
    once, for the execution id, and does nothing else. *)
Theorem empty_workflow_is_completed
  (env : Env) (workflow_id : string) (workflow_config input : gmap string value)
  (w : World)
  (Hempty : workflow_config !! "steps" = None
            \/ workflow_config !! "steps" = Some (VList [])) :
  execute_workflow env workflow_id workflow_config input w
  = (Ok {| report_execution_id := utcnow_at env (reads w);
           report_status := "completed";
           report_step_results := [] |},
     {| circuit_breakers := circuit_breakers w;
        rate_limiters := rate_limiters w;
        reads := S (reads w); calls := calls w; trace := trace w |}).
Proof.
  assert (Hs : steps_of workflow_config = Ok []).
  { unfold steps_of. destruct Hempty as [-> | ->]; reflexivity. }
  unfold execute_workflow, new_context, bind, utcnow, lift. cbn iota beta.
  unfold ret at 1. cbn iota beta. rewrite Hs. reflexivity.
Qed.

Lemma empty_workflow_is_completed_witness :
  fst (execute_workflow healthy_env "wf" ∅ ∅ fresh_world)
  = Ok {| report_execution_id := 0; report_status := "completed";
          report_step_results := [] |}.
Proof.
  rewrite (empty_workflow_is_completed healthy_env "wf" ∅ ∅ fresh_world
             (or_introl (lookup_empty _))).
  reflexivity.
Defined.

(** X14. In every report each entry is consistent: a completed entry
    carries an output and no error, a failed entry carries an error
    message and no output. *)
Theorem report_entries_carry_output_or_error
  (env : Env) (workflow_id : string) (workflow_config input : gmap string value)
  (w : World) (rep : Report)
  (Hrep : fst (execute_workflow env workflow_id workflow_config input w) = Ok rep) :
  Forall entry_consistent (report_step_results rep).
Proof.
  destruct (report_entries_of_report _ _ _ _ _ _ Hrep) as (steps & _ & Hes & _).
  eapply run_entries_Forall; [| exact Hes].
  intros s en. apply step_entry_consistent.
Qed.

Lemma report_entries_carry_output_or_error_witness :
  exists rep,
    fst (execute_workflow healthy_env "wf" lenient_workflow ∅ fresh_world) = Ok rep
    /\ Forall entry_consistent (report_step_results rep).
Proof.
  destruct (fst (execute_workflow healthy_env "wf" lenient_workflow ∅
                   fresh_world)) as [rep|e] eqn:H.
  - exists rep. split; [reflexivity|].
    exact (report_entries_carry_output_or_error healthy_env "wf"
             lenient_workflow ∅ fresh_world rep H).
  - exfalso. vm_compute in H. discriminate H.
Defined.

Lemma step_entry_id step en :
  step_entry step = Ok en -> entry_step_id en = step_id_of step.
Proof.
  unfold step_entry, step_id_of, rbind.
  destruct (py_get step "id" VNone); [| discriminate].
  destruct (py_get step "type" VNone); [| discriminate].
  destruct (StepType_of _); [| discriminate].
  destruct (py_get step "config" _); [| discriminate].
  intros H. inversion H; subst.
  destruct (dispatch_outcome _ _); reflexivity.
Qed.

Lemma run_entries_ids workflow_config steps :
  forall es, run_entries workflow_config steps = Ok es ->
             entry_step_id <$> es = take (length es) (step_id_of <$> steps).
Proof.
  induction steps as [|step rest IH]; intros es H; simpl in H.
  - inversion H. reflexivity.
  - destruct (step_entry step) as [en|] eqn:Hen; [| discriminate].
    cbn [rbind] in H. apply step_entry_id in Hen.
    destruct (breaks_after workflow_config en) as [[]|]; cbn [rbind] in H;
      [| | discriminate].
    + inversion H; subst. simpl. rewrite Hen, take_0. reflexivity.
    + destruct (run_entries workflow_config rest) as [es'|]; [| discriminate].
      inversion H; subst. rewrite !fmap_cons. cbn [length take].
      rewrite Hen. f_equal. apply IH. reflexivity.
Qed.

(** X15. The entries of a report follow the steps of the workflow in
    order, one per executed step and none for a step that was not
    reached: their ids are the ids of an initial segment of the step
    list. *)
Theorem report_follows_step_order
  (env : Env) (workflow_id : string) (workflow_config input : gmap string value)
  (w : World) (rep : Report) (steps : list value)
  (Hrep : fst (execute_workflow env workflow_id workflow_config input w) = Ok rep)
  (Hsteps : steps_of workflow_config = Ok steps) :
  (length (report_step_results rep) <= length steps)%nat
  /\ entry_step_id <$> report_step_results rep
     = take (length (report_step_results rep)) (step_id_of <$> steps).
Proof.
  destruct (report_entries_of_report _ _ _ _ _ _ Hrep)
    as (steps' & Hs' & Hes & _).
  rewrite Hsteps in Hs'. inversion Hs'; subst steps'.
  split.
  - exact (proj1 (run_entries_short workflow_config steps _ Hes)).
  - exact (run_entries_ids workflow_config steps _ Hes).
Qed.

Lemma report_follows_step_order_witness :
  exists rep,
    fst (execute_workflow healthy_env "wf" five_step_workflow ∅ fresh_world)
    = Ok rep
    /\ entry_step_id <$> report_step_results rep
       = take (length (report_step_results rep))
           [VStr "s1"; VStr "s2"; VStr "s3"; VStr "s4"; VStr "s5"].
Proof.
  destruct (fst (execute_workflow healthy_env "wf" five_step_workflow ∅
                   fresh_world)) as [rep|e] eqn:H.
  - exists rep. split; [reflexivity|].
    refine (proj2 (report_follows_step_order healthy_env "wf"
                     five_step_workflow ∅ fresh_world rep
                     [make_step "s1" "transform" ∅;
                      make_step "s2" "delay" {[ "seconds" := VInt 1 ]};
                      make_step "s3" "http_request" ∅;
                      make_step "s4" "condition" ∅;
                      make_step "s5" "transform" ∅] H _)).
    vm_compute. reflexivity.
  - exfalso. vm_compute in H. discriminate H.
Defined.

Lemma unfailed_final_status es :
  Forall (fun en => completed_or_failed en /\ entry_failed en = false) es ->
  final_status_of es = "completed".
Proof.
  intros H. unfold final_status_of.
  assert (Hf : existsb entry_failed es = false).
  { induction H as [|en es [_ Hf] _ IH]; [reflexivity|].
    simpl. rewrite Hf, IH. reflexivity. }
  assert (Ha : forallb entry_completed es = true).
  { induction H as [|en es [[Hc|Hc] Hn] _ IH]; [reflexivity | |]; simpl.
    - unfold entry_completed at 1. rewrite Hc. simpl. apply IH.
      simpl in Hf. apply orb_false_iff in Hf. tauto.
    - unfold entry_failed in Hn. rewrite Hc in Hn. discriminate. }
  rewrite Hf, Ha. reflexivity.
Qed.

(** X16. A workflow all of whose steps complete is reported completed
    with one entry per step, whatever its error-handling policy is:
    the policy is only read after a failed step, so even one that is
    no mapping does no harm. *)
Theorem all_steps_completed_is_completed
  (env : Env) (workflow_id : string) (workflow_config input : gmap string value)
  (w : World) (steps : list value) (es : list StepEntry)
  (Hsteps : steps_of workflow_config = Ok steps)
  (Hall : Forall2 (fun s e => step_entry s = Ok e /\ entry_failed e = false)
                  steps es) :
  fst (execute_workflow env workflow_id workflow_config input w)
  = Ok {| report_execution_id := utcnow_at env (reads w);
          report_status := "completed";
          report_step_results := es |}
  /\ length es = length steps.
Proof.
  split; [| symmetry; eapply Forall2_length; exact Hall].
  rewrite execute_workflow_pure. unfold report_entries.
  rewrite Hsteps. cbn [rbind].
  assert (Hes : run_entries workflow_config steps = Ok es).
  { apply run_entries_all. eapply Forall2_impl; [exact Hall|].
    simpl. intros s e [Hs Hf]. split; [exact Hs|]. intros Ht. congruence. }
  rewrite Hes. simpl. unfold report_with. f_equal. f_equal.
  apply unfailed_final_status.
  pose proof (run_entries_terminal workflow_config steps es Hes) as Hterm.
  clear Hes Hsteps. induction Hall as [|s e steps es [_ Hf] _ IH]; [constructor|].
  inversion Hterm; subst. constructor; auto.
Qed.

Lemma all_steps_completed_is_completed_witness :
  fst (execute_workflow healthy_env "wf"
         (<["error_handling" := VNone]> http_workflow) ∅ fresh_world)
  = Ok {| report_execution_id := 0; report_status := "completed";
          report_step_results :=
            [{| entry_step_id := VStr "fetch"; entry_status := "completed";
                entry_output := Some placeholder_output;
                entry_error := None |}] |}.
Proof.
  apply (all_steps_completed_is_completed healthy_env "wf"
           (<["error_handling" := VNone]> http_workflow) ∅ fresh_world
           [make_step "fetch" "http_request"
              {[ "url" := VStr "https://crm.example/api/contacts";
                 "method" := VStr "GET" ]}]).
  - vm_compute. reflexivity.
  - repeat constructor; vm_compute; reflexivity.
Defined.

(** X17. When a step fails and the workflow's [error_handling] is not
    a mapping, the failure is recorded but reading the policy raises
    [AttributeError], which leaves [execute_workflow]: no report is
    returned. *)
Theorem malformed_policy_escapes_on_failure
  (env : Env) (workflow_id : string) (workflow_config input : gmap string value)
  (w : World) (policy : value) (before after : list value) (step : value)
  (en : StepEntry)
  (Hpolicy : workflow_config !! "error_handling" = Some policy)
  (Hnodict : forall d, policy <> VDict d)
  (Hsteps : steps_of workflow_config = Ok (before ++ step :: after))
  (Hbefore : Forall (fun s => exists e, step_entry s = Ok e
                                        /\ entry_failed e = false) before)
  (Hen : step_entry step = Ok en)
  (Hfailed : entry_failed en = true) :
  fst (execute_workflow env workflow_id workflow_config input w)
  = Raise (AttributeError_get policy).
Proof.
  rewrite execute_workflow_pure. unfold report_entries.
  rewrite Hsteps. cbn [rbind].
  assert (Hstop : stop_on_error workflow_config = Raise (AttributeError_get policy)).
  { unfold stop_on_error. rewrite Hpolicy. simpl.
    destruct policy as [| | | | | |d]; try reflexivity.
    exfalso. exact (Hnodict d eq_refl). }
  assert (Hes : run_entries workflow_config (before ++ step :: after)
                = Raise (AttributeError_get policy)).
  { clear Hsteps.
    induction Hbefore as [|s before (e & Hs & Hf) _ IH]; simpl.
    - rewrite Hen. cbn [rbind]. unfold breaks_after. rewrite Hfailed, Hstop.
      reflexivity.
    - rewrite Hs. cbn [rbind]. unfold breaks_after. rewrite Hf. cbn [rbind].
      rewrite IH. reflexivity. }
  rewrite Hes. reflexivity.
Qed.

Lemma malformed_policy_escapes_on_failure_witness :
  fst (execute_workflow healthy_env "wf"
         (<["error_handling" := VNone]> bad_delay_workflow) ∅ fresh_world)
  = Raise (AttributeError_get VNone).
Proof.
  apply (malformed_policy_escapes_on_failure healthy_env "wf"
           (<["error_handling" := VNone]> bad_delay_workflow) ∅ fresh_world
           VNone []
           [make_step "map" "transform" ∅]
           (make_step "wait" "delay" {[ "seconds" := VStr "soon" ]})
           {| entry_step_id := VStr "wait"; entry_status := "failed";
              entry_output := None;
              entry_error :=
                Some "'<=' not supported between instances of 'str' and 'int'" |}).
  - vm_compute. reflexivity.
  - intros d. discriminate.
  - vm_compute. reflexivity.
  - constructor.
  - vm_compute. reflexivity.
  - reflexivity.
Defined.

Lemma py_get_escaping v k d e : py_get v k d = Raise e -> escaping e.
Proof.
  intros H. right. left. exists v.
  destruct v; simpl in H; try discriminate; inversion H; reflexivity.
Qed.

Lemma step_entry_escaping step e : step_entry step = Raise e -> escaping e.
Proof.
  unfold step_entry, rbind.
  destruct (py_get step "id" VNone) eqn:H1;
    [| intros H; inversion H; subst; eapply py_get_escaping; exact H1].
  destruct (py_get step "type" VNone) as [type|] eqn:H2;
    [| intros H; inversion H; subst; eapply py_get_escaping; exact H2].
  destruct (StepType_of type) eqn:H3.
  - destruct (py_get step "config" (VDict ∅)) eqn:H4;
      [discriminate
      | intros H; inversion H; subst; eapply py_get_escaping; exact H4].
  - intros H. inversion H; subst. right. right. exists type.
    unfold StepType_of in H3.
    destruct type; try (inversion H3; reflexivity).
    destruct (find _ _); inversion H3. reflexivity.
Qed.

Lemma run_entries_escaping workflow_config steps e :
  run_entries workflow_config steps = Raise e -> escaping e.
Proof.
  induction steps as [|step rest IH]; simpl; [discriminate|].
  destruct (step_entry step) as [en|] eqn:Hen; cbn [rbind];
    [| intros H; inversion H; subst; eapply step_entry_escaping; exact Hen].
  unfold breaks_after.
  destruct (entry_failed en).
  - unfold stop_on_error.
    destruct (py_get _ "stop_on_error" (VBool true)) eqn:Hp; cbn [rmap rbind].
    + destruct (truthy a); [discriminate|].
      destruct (run_entries workflow_config rest); [discriminate|].
      simpl. intros H. inversion H; subst. apply IH. reflexivity.
    + intros H. inversion H; subst. eapply py_get_escaping. exact Hp.
  - cbn [rbind].
    destruct (run_entries workflow_config rest); [discriminate|].
    simpl. intros H. inversion H; subst. apply IH. reflexivity.
Qed.

(** X18. Among the exceptions that derive from [Exception], the ones
    modelled, whatever leaves [execute_workflow] is one of three: the
    [TypeError] of steps that cannot be iterated, the [AttributeError]
    of a step or a policy that is no mapping, or the [ValueError] of
    an undeclared step kind. An [Exception] raised by a step's handler
    does not escape: [except Exception] records it in a failed entry.
    (A [BaseException] that is no [Exception], such as the
    [CancelledError] of a task cancelled while it sleeps, passes
    [except Exception]; it is outside the model.) *)
Theorem only_malformed_workflows_escape
  (env : Env) (workflow_id : string) (workflow_config input : gmap string value)
  (w : World) (e : pyexn)
  (Hraise : fst (execute_workflow env workflow_id workflow_config input w)
            = Raise e) :
  escaping e.
Proof.
  rewrite execute_workflow_pure in Hraise. unfold report_entries in Hraise.
  destruct (steps_of workflow_config) as [steps|] eqn:Hs; cbn [rbind] in Hraise.
  - destruct (run_entries workflow_config steps) eqn:Hes; [discriminate|].
    simpl in Hraise. inversion Hraise; subst.
    eapply run_entries_escaping. exact Hes.
  - simpl in Hraise. inversion Hraise; subst.
    unfold steps_of in Hs. left.
    exists (default (VList []) (workflow_config !! "steps")).
    destruct (default (VList []) (workflow_config !! "steps"));
      simpl in Hs; try discriminate; inversion Hs; reflexivity.
Qed.

Lemma only_malformed_workflows_escape_witness :
  escaping (PyExn "ValueError" "'webhook' is not a valid StepType" None).
Proof.
  apply (only_malformed_workflows_escape healthy_env "wf" unknown_kind_workflow
           ∅ fresh_world).
  vm_compute. reflexivity.
Defined.

(** X19. A delay step whose [seconds] is an integer, or is missing
    (it then defaults to 0), takes its two clock readings and returns
    a result. When the integer is within the range of floats the step
    sleeps exactly that long, once, and completes with
    [{"delayed_seconds": seconds}]; a delay that is zero or negative
    is passed to the sleep as it is. When it is beyond the range of
    floats the sleep raises [OverflowError]: the step fails with that
    message and nothing is slept. *)
Theorem delay_step_sleeps_configured_seconds
  (env : Env) (step config : gmap string value) (z : Z)
  (context : ExecutionContext) (w : World)
  (Hseconds : default (VInt 0) (config !! "seconds") = VInt z) :
  let out := _execute_step env
               (VDict (<["type" := VStr "delay"]>
                         (<["config" := VDict config]> step))) context w in
  exists r,
    fst out = Ok r
    /\ started_at r = Some (utcnow_at env (reads w))
    /\ completed_at r = Some (utcnow_at env (S (reads w)))
    /\ reads (snd out) = S (S (reads w))
    /\ (z < float_limit ->
        status r = COMPLETED
        /\ output r = Some {[ "delayed_seconds" := VInt z ]}
        /\ error r = None
        /\ trace (snd out) = trace w ++ [Slept (NInt z)])
    /\ (float_limit <= z ->
        status r = FAILED
        /\ output r = None
        /\ error r = Some "int too large to convert to float"
        /\ trace (snd out) = trace w).
Proof.
  intros out. subst out.
  set (m := <["type" := VStr "delay"]> (<["config" := VDict config]> step)).
  assert (Ht : m !! "type" = Some (VStr "delay")) by apply lookup_insert_eq.
  assert (Hc : m !! "config" = Some (VDict config)).
  { subst m. rewrite lookup_insert_ne by discriminate. apply lookup_insert_eq. }
  clearbody m.
  assert (Hlimit : 0 < float_limit) by (vm_compute; reflexivity).
  unfold _execute_step, bind, lift, py_get. rewrite Ht, Hc.
  cbn [from_option]. unfold id.
  change (StepType_of (VStr "delay")) with (Ok DELAY).
  unfold utcnow at 1. cbn iota beta. unfold try_.
  unfold dispatch, _execute_delay, bind, lift, py_get.
  rewrite Hseconds. cbn iota beta. unfold asyncio_sleep, float_of_int.
  destruct (Z.leb_spec z 0) as [Hz|Hz].
  - unfold sleep. cbn iota beta. unfold ret, utcnow. cbn iota beta.
    eexists. split; [reflexivity|]. simpl.
    repeat split; try reflexivity; lia.
  - rewrite (Z.abs_eq z) by lia.
    destruct (Z.leb_spec float_limit z) as [Hbig|Hsmall].
    + unfold raise, OverflowError. cbn iota beta.
      unfold ret, utcnow. cbn iota beta.
      eexists. split; [reflexivity|]. simpl.
      repeat split; try reflexivity; lia.
    + unfold sleep. cbn iota beta. unfold ret, utcnow. cbn iota beta.
      eexists. split; [reflexivity|]. simpl.
      repeat split; try reflexivity; lia.
Qed.

Lemma delay_step_sleeps_configured_seconds_witness :
  trace (snd (_execute_step healthy_env
                (VDict (<["type" := VStr "delay"]>
                          (<["config" := VDict {[ "seconds" := VInt 7 ]}]> ∅)))
                empty_context fresh_world))
  = [Slept (NInt 7)].
Proof.
  destruct (delay_step_sleeps_configured_seconds healthy_env ∅
              {[ "seconds" := VInt 7 ]} 7 empty_context fresh_world)
    as (r & _ & _ & _ & _ & Hfits & _).
  - vm_compute. reflexivity.
  - apply Hfits. vm_compute. reflexivity.
Defined.

(** ** IntegrationHttpClient: the limiter a call works with *)

Lemma acquire_shape now l :
  rate (snd (acquire now l)) = rate l /\ window (snd (acquire now l)) = window l.
Proof.
  unfold acquire. destruct (refilled l now); [| auto].
  destruct (at_least_one _); auto.
Qed.

Section LimiterShape.
Variable env : Env.
Variable k : string.

Lemma shape_utcnow : preserves (limiter_shape k) (utcnow env).
Proof. intros w. reflexivity. Qed.

Lemma shape_sleep d : preserves (limiter_shape k) (sleep d).
Proof. intros w. reflexivity. Qed.

Lemma shape_send req : preserves (limiter_shape k) (send env req).
Proof.
  intros w. unfold send. destruct (transport env (calls w) req); reflexivity.
Qed.

Lemma shape_get_circuit_breaker id :
  preserves (limiter_shape k) (_get_circuit_breaker id).
Proof.
  intros w. unfold _get_circuit_breaker.
  destruct (circuit_breakers w !! id); reflexivity.
Qed.

Lemma shape_breaker_record_success cb :
  preserves (limiter_shape k) (breaker_record_success cb).
Proof. intros w. reflexivity. Qed.

Lemma shape_breaker_record_failure cb :
  preserves (limiter_shape k) (breaker_record_failure env cb).
Proof. intros w. reflexivity. Qed.

Lemma shape_breaker_can_execute cb :
  preserves (limiter_shape k) (breaker_can_execute env cb).
Proof.
  intros w. unfold breaker_can_execute.
  destruct (circuit_breakers w !! cb) as [b|]; [| reflexivity].
  destruct (can_execute_reads_clock b); unfold bind, utcnow; simpl;
    destruct (can_execute _ _ b); reflexivity.
Qed.

Lemma shape_limiter_acquire rl :
  preserves (limiter_shape k) (limiter_acquire env rl).
Proof.
  intros w. unfold limiter_acquire, limiter_shape.
  destruct (rate_limiters w !! rl) as [l|] eqn:Hl; [| reflexivity].
  unfold bind, utcnow; simpl.
  pose proof (acquire_shape (utcnow_at env (reads w)) l) as [Hr Hw].
  destruct (acquire _ l) as [r l1]; simpl in *.
  destruct (decide (rl = k)) as [->|Hne].
  - rewrite lookup_insert_eq, Hl. simpl. rewrite Hr, Hw. reflexivity.
  - rewrite lookup_insert_ne by exact Hne. reflexivity.
Qed.

Lemma shape_attempt_once cb req :
  preserves (limiter_shape k) (attempt_once env cb req).
Proof.
  unfold attempt_once.
  apply preserves_bind; [apply shape_send | intros resp].
  apply preserves_bind; [apply shape_breaker_record_success | intros _].
  apply preserves_bind; [| auto with quiet].
  destruct (content resp); auto with quiet.
Qed.

Lemma shape_attempt_loop cb req max_retries attempts :
  forall last,
    preserves (limiter_shape k)
      (attempt_loop env cb req max_retries attempts last).
Proof.
  induction attempts as [|attempt rest IH]; intros last; simpl.
  - unfold raise_last. destruct last; auto with quiet.
  - apply preserves_bind; [apply preserves_try, shape_attempt_once | intros r].
    destruct r as [summary|e]; [auto with quiet|].
    apply preserves_bind; [apply shape_breaker_record_failure | intros _].
    apply preserves_bind;
      [apply preserves_if; auto using shape_sleep with quiet | intros _].
    apply IH.
Qed.
End LimiterShape.

Lemma bind_assoc {A B C} (m : M A) (k1 : A -> M B) (k2 : B -> M C) w :
  bind (bind m k1) k2 w = bind m (fun a => bind (k1 a) k2) w.
Proof.
  unfold bind. destruct (m w) as [[a|e] w1]; reflexivity.
Qed.

Lemma request_limiter_shape env id req retries w k :
  limiter_shape k (snd (request env id req retries w))
  = limiter_shape k (snd (_get_rate_limiter env id None w)).
Proof.
  unfold request, request_guards.
  assert (Ha : exists wa, _get_circuit_breaker id w = (Ok id, wa)
                          /\ rate_limiters wa = rate_limiters w
                          /\ reads wa = reads w).
  { unfold _get_circuit_breaker.
    destruct (circuit_breakers w !! id); eexists; (split; [reflexivity|]);
      simpl; auto. }
  destruct Ha as (wa & Ha & Hla & Hra).
  rewrite bind_assoc, (bind_ok _ _ _ _ _ Ha).
  assert (Hb : exists wb, _get_rate_limiter env id None wa = (Ok id, wb)
                          /\ limiter_shape k wb
                             = limiter_shape k (snd (_get_rate_limiter env id None w))).
  { unfold _get_rate_limiter, limiter_shape. rewrite Hla.
    destruct (rate_limiters w !! id) eqn:E.
    - eexists. split; [reflexivity|]. simpl. rewrite Hla. reflexivity.
    - unfold bind, utcnow. simpl. eexists. split; [reflexivity|]. simpl.
      rewrite Hla, Hra. reflexivity. }
  destruct Hb as (wb & Hb & Hshape).
  rewrite bind_assoc, (bind_ok _ _ _ _ _ Hb). rewrite <- Hshape.
  match goal with |- limiter_shape k (snd (?R wb)) = _ =>
    change (limiter_shape k (snd (R wb)) = limiter_shape k wb);
    revert wb Hb Hshape; intros wb _ _;
    generalize wb; change (preserves (limiter_shape k) R)
  end.
  eapply preserves_bind_val with (P := fun _ => True).
  - apply preserves_bind; [apply shape_breaker_can_execute | intros ok].
    apply preserves_if; [auto with quiet|].
    apply preserves_bind; [apply shape_limiter_acquire | intros got].
    apply preserves_if; auto with quiet.
  - apply returns_any.
  - intros cb _. apply shape_attempt_loop.
Qed.

(** X20. A call never changes the capacity or the window of a limiter
    that exists, and the limiter it creates for a connector that has
    none is always built from the process-wide defaults
    ([default_rate_limit], [rate_limit_window]): [request] passes no
    rate of the connector's own. *)
Theorem request_limiters_use_default_settings
  (env : Env) (connector_id : string) (req : Request) (retries : option Z)
  (w : World) (k : string) :
  let w' := snd (request env connector_id req retries w) in
  (forall l, rate_limiters w !! k = Some l ->
             limiter_shape k w' = Some (rate l, window l))
  /\ (rate_limiters w !! connector_id = None ->
      limiter_shape connector_id w'
      = Some (default_rate_limit (settings env),
              rate_limit_window (settings env))).
Proof.
  intros w'. subst w'. split.
  - intros l Hl. rewrite request_limiter_shape.
    unfold _get_rate_limiter, limiter_shape.
    destruct (rate_limiters w !! connector_id) eqn:E; simpl.
    + rewrite Hl. reflexivity.
    + unfold bind, utcnow. simpl.
      destruct (decide (connector_id = k)) as [->|Hne]; [congruence|].
      rewrite lookup_insert_ne by exact Hne. rewrite Hl. reflexivity.
  - intros Hnone. rewrite request_limiter_shape.
    unfold _get_rate_limiter, limiter_shape. rewrite Hnone.
    unfold bind, utcnow. simpl. rewrite lookup_insert_eq. reflexivity.
Qed.

Lemma request_limiters_use_default_settings_witness :
  limiter_shape "crm"
    (snd (request failing_env "crm" sample_request (Some 1) fresh_world))
  = Some (100, 60).
Proof.
  apply (proj2 (request_limiters_use_default_settings failing_env "crm"
                  sample_request (Some 1) fresh_world "crm")).
  reflexivity.
Defined.
